(** * Unit converter (app.py): conversion engine and AI response interpreter

    The development embeds the two functions of [app.py] that carry logic,
    [convert_units] and [parse_with_gemini], together with the parts of the
    Python runtime they rest on (exceptions, IEEE 754 binary64 arithmetic,
    [str.strip], [str.split], [json.loads], [float]).

    Conventions:
    - a Python [str] is a Rocq [string] holding its UTF-8 encoding;
    - a Python [float] is a primitive binary64 [float]; the same code is also
      read over exact rationals [Q], to separate what the formulas do from
      what rounding does;
    - a Python call that may raise is a [result]: [Ok v] or [Raise e]. *)

From Stdlib Require Import ZArith QArith Qabs Qpower Floats String Ascii List Lia Lqa.
From stdpp Require Import gmap strings.

Open Scope string_scope.

(** ** Python exceptions and fallible computations *)

Inductive exn : Type :=
| KeyError (key : string)
| IndexError
| TypeError (msg : string)
| ValueError (msg : string)
| OverflowError
| AttributeError (msg : string)
| JSONDecodeError (msg : string)
| RecursionError
| ServiceError (msg : string).

Inductive result (A : Type) : Type :=
| Ok (v : A)
| Raise (e : exn).
Arguments Ok {A} v.
Arguments Raise {A} e.

(** Sequencing: the first exception raised ends the computation
    ([x ← c; k] is stdpp's notation for [mbind]). *)
#[export] Instance result_ret : MRet result := fun A v => Ok v.
#[export] Instance result_bind : MBind result := fun A B k c =>
  match c with
  | Ok v => k v
  | Raise e => Raise e
  end.

(** [d[k]] on a dict: the value, or [KeyError k]. *)
Definition getitem {V : Type} (d : gmap string V) (k : string) : result V :=
  match d !! k with
  | Some v => Ok v
  | None => Raise (KeyError k)
  end.

(** ** Numbers

    The arithmetic [convert_units] uses, as an interface: the literals of the
    source and the four operations.  [lit q] is the value of the decimal
    literal [q] of the source text. *)

Class Number (num : Type) : Type := {
  lit : Q -> num;
  nadd : num -> num -> num;
  nsub : num -> num -> num;
  nmul : num -> num -> num;
  ndiv : num -> num -> num
}.

Declare Scope num_scope.
Delimit Scope num_scope with num.
Infix "+" := nadd : num_scope.
Infix "-" := nsub : num_scope.
Infix "*" := nmul : num_scope.
Infix "/" := ndiv : num_scope.

(** *** Binary64 *)

(** The integer [z] as a [spec_float] with exponent 0 (not normalised). *)
Definition SF_of_Z (z : Z) : spec_float :=
  match z with
  | Z0 => S754_zero false
  | Zpos p => S754_finite false p 0
  | Zneg p => S754_finite true p 0
  end.

(** The double nearest to the rational [q] (ties to even): the quotient of
    numerator by denominator, rounded once.  This is what Python's parser
    yields for a decimal literal, and what [float] yields for a decimal string. *)
Definition nearest_float (q : Q) : float :=
  SF2Prim (SFdiv prec emax (SF_of_Z (Qnum q)) (SF_of_Z (Zpos (Qden q)))).

#[export] Instance float_Number : Number float := {
  lit := nearest_float;
  nadd := PrimFloat.add;
  nsub := PrimFloat.sub;
  nmul := PrimFloat.mul;
  ndiv := PrimFloat.div
}.

(** The exact value of a finite double. *)
Definition SF2Q (x : spec_float) : Q :=
  match x with
  | S754_finite s m e =>
      let a := if s then Zneg m else Zpos m in
      match e with
      | Z0 => inject_Z a
      | Zpos k => inject_Z (a * Z.pow_pos 2 k)
      | Zneg k => a # (Pos.pow 2 k)
      end
  | _ => 0
  end.

Definition float_toQ (x : float) : Q := SF2Q (Prim2SF x).

Definition is_finite (x : float) : bool :=
  match Prim2SF x with
  | S754_zero _ | S754_finite _ _ _ => true
  | _ => false
  end.

(** *** Exact rationals *)

#[export] Instance Q_Number : Number Q := {
  lit := fun q => q;
  nadd := Qplus;
  nsub := Qminus;
  nmul := Qmult;
  ndiv := Qdiv
}.

(** ** The conversion engine: [convert_units] (app.py, lines 28-73) *)

Section ConversionEngine.
Context {num : Type} `{Number num}.

(** A value of the [conversions] table: a factor, or (for Temperature) a
    function. *)
Inductive entry : Type :=
| Factor (f : num)
| Formula (f : num -> num).

Definition conversions : gmap string (gmap string entry) :=
  {[ "Length" :=
       {[ "meters" := Factor (lit 1.0);
          "feet" := Factor (lit 0.3048);
          "inches" := Factor (lit 0.0254);
          "centimeters" := Factor (lit 0.01);
          "kilometers" := Factor (lit 1000.0);
          "miles" := Factor (lit 1609.34) ]};
     "Weight" :=
       {[ "kilograms" := Factor (lit 1.0);
          "pounds" := Factor (lit 0.453592);
          "grams" := Factor (lit 0.001);
          "ounces" := Factor (lit 0.0283495) ]};
     "Temperature" :=
       {[ "Celsius" := Formula (fun x => x);
          "Fahrenheit" := Formula (fun x => (x * lit 9 / lit 5) + lit 32)%num;
          "Kelvin" := Formula (fun x => x + lit 273.15)%num ]};
     "Volume" :=
       {[ "liters" := Factor (lit 1.0);
          "gallons" := Factor (lit 3.78541);
          "milliliters" := Factor (lit 0.001);
          "cubic feet" := Factor (lit 28.3168) ]} ]}.

(** [value * e] and [value / e] for a table value [e]: a number times a
    function is a [TypeError]. *)
Definition mul_entry (value : num) (e : entry) : result num :=
  match e with
  | Factor f => Ok (value * f)%num
  | Formula _ => Raise (TypeError "unsupported operand type(s) for *")
  end.

Definition div_entry (value : num) (e : entry) : result num :=
  match e with
  | Factor f => Ok (value / f)%num
  | Formula _ => Raise (TypeError "unsupported operand type(s) for /")
  end.

Definition convert_units (value : num) (from_unit to_unit category : string)
  : result num :=
  if String.eqb category "Temperature" then
    let celsius :=
      if String.eqb from_unit "Fahrenheit" then
        ((value - lit 32) * lit 5 / lit 9)%num
      else if String.eqb from_unit "Kelvin" then
        (value - lit 273.15)%num
      else value in
    if String.eqb to_unit "Fahrenheit" then
      Ok ((celsius * lit 9 / lit 5) + lit 32)%num
    else if String.eqb to_unit "Kelvin" then
      Ok (celsius + lit 273.15)%num
    else Ok celsius
  else
    table ← getitem conversions category;
    from_entry ← getitem table from_unit;
    to_base ← mul_entry value from_entry;
    table' ← getitem conversions category;
    to_entry ← getitem table' to_unit;
    div_entry to_base to_entry.

(** The unit labels of each category (app.py, lines 204-209). *)
Definition unit_options : gmap string (list string) :=
  {[ "Length" := ["meters"; "feet"; "inches"; "centimeters"; "kilometers"; "miles"];
     "Weight" := ["kilograms"; "pounds"; "grams"; "ounces"];
     "Temperature" := ["Celsius"; "Fahrenheit"; "Kelvin"];
     "Volume" := ["liters"; "gallons"; "milliliters"; "cubic feet"] ]}.

Definition categories : list string := ["Length"; "Weight"; "Temperature"; "Volume"].

(** The multiplicative factor of a unit, read off the table. *)
Definition factor (category unit : string) : option num :=
  match conversions !! category with
  | Some table =>
      match table !! unit with
      | Some (Factor f) => Some f
      | _ => None
      end
  | None => None
  end.

(** The two temperature steps as the specification words them: a scale to
    Celsius by the inverse formula, and Celsius to a scale by the forward
    formula.  [None] for a name that is no temperature scale. *)
Definition to_celsius (scale : string) (x : num) : option num :=
  if String.eqb scale "Celsius" then Some x
  else if String.eqb scale "Fahrenheit" then Some ((x - lit 32) * lit 5 / lit 9)%num
  else if String.eqb scale "Kelvin" then Some (x - lit 273.15)%num
  else None.

Definition from_celsius (scale : string) (x : num) : option num :=
  if String.eqb scale "Celsius" then Some x
  else if String.eqb scale "Fahrenheit" then Some (x * lit 9 / lit 5 + lit 32)%num
  else if String.eqb scale "Kelvin" then Some (x + lit 273.15)%num
  else None.

End ConversionEngine.

(** ** Python strings

    [str.strip], [in], [str.split] and indexing, on the UTF-8 encoding. *)

Module Str.

Definition byte (n : N) : ascii := ascii_of_N n.

Fixpoint of_bytes (l : list N) : string :=
  match l with
  | [] => ""
  | b :: l' => String (byte b) (of_bytes l')
  end.

Fixpoint rev_append (s acc : string) : string :=
  match s with
  | "" => acc
  | String c s' => rev_append s' (String c acc)
  end.

Definition rev (s : string) : string := rev_append s "".

(** [strip_prefix p s]: [s] without its prefix [p], when it starts with [p]. *)
Fixpoint strip_prefix (p s : string) : option string :=
  match p, s with
  | "", _ => Some s
  | String a p', String b s' => if Ascii.eqb a b then strip_prefix p' s' else None
  | String _ _, "" => None
  end.

(** The characters for which [str.isspace] holds, encoded: U+0009..U+000D,
    U+001C..U+0020, U+0085, U+00A0, U+1680, U+2000..U+200A, U+2028, U+2029,
    U+202F, U+205F, U+3000. *)
Definition whitespace : list string :=
  map of_bytes
    [ [9]; [10]; [11]; [12]; [13]; [28]; [29]; [30]; [31]; [32];
      [194; 133]; [194; 160]; [225; 154; 128];
      [226; 128; 128]; [226; 128; 129]; [226; 128; 130]; [226; 128; 131];
      [226; 128; 132]; [226; 128; 133]; [226; 128; 134]; [226; 128; 135];
      [226; 128; 136]; [226; 128; 137]; [226; 128; 138];
      [226; 128; 168]; [226; 128; 169]; [226; 128; 175];
      [226; 129; 159]; [227; 128; 128] ]%N.

(** [s] without one leading character out of [chars], if it starts with one. *)
Fixpoint drop_one (chars : list string) (s : string) : option string :=
  match chars with
  | [] => None
  | c :: chars' =>
      match strip_prefix c s with
      | Some s' => Some s'
      | None => drop_one chars' s
      end
  end.

Fixpoint lstrip_chars (n : nat) (chars : list string) (s : string) : string :=
  match n with
  | O => s
  | S n' =>
      match drop_one chars s with
      | Some s' => lstrip_chars n' chars s'
      | None => s
      end
  end.

Definition lstrip (s : string) : string :=
  lstrip_chars (String.length s) whitespace s.

Definition rstrip (s : string) : string :=
  let r := rev s in
  rev (lstrip_chars (String.length r) (map rev whitespace) r).

Definition strip (s : string) : string := rstrip (lstrip s).

(** [sub in s] for a non-empty [sub]. *)
Fixpoint contains (sub s : string) : bool :=
  match strip_prefix sub s with
  | Some _ => true
  | None =>
      match s with
      | "" => false
      | String _ s' => contains sub s'
      end
  end.

(** [s.split(sep)] for a non-empty [sep], scanning left to right:
    [cur] is the current piece, reversed; [skip] counts the characters of a
    separator just found that are still to pass over. *)
Fixpoint split_from (sep s : string) (skip : nat) (cur : string) : list string :=
  match s with
  | "" => [rev cur]
  | String c s' =>
      match skip with
      | S k => split_from sep s' k cur
      | O =>
          match strip_prefix sep s with
          | Some _ => rev cur :: split_from sep s' (Nat.pred (String.length sep)) ""
          | None => split_from sep s' O (String c cur)
          end
      end
  end.

Definition split (sep s : string) : list string := split_from sep s O "".

(** [l[i]]: the element, or [IndexError]. *)
Definition index {A : Type} (l : list A) (i : nat) : result A :=
  match l !! i with
  | Some x => Ok x
  | None => Raise IndexError
  end.

Definition newline : string := of_bytes [10%N].

(** The double quote, and a way to write texts that hold some: [dq s] is [s]
    with a double quote in place of every apostrophe. *)
Definition dquote : ascii := byte 34.

Fixpoint dq (s : string) : string :=
  match s with
  | "" => ""
  | String c s' => String (if Ascii.eqb c "'" then dquote else c) (dq s')
  end.

End Str.

(** ** Decimal text to numbers *)

Module Dec.

Definition is_digit (c : ascii) : bool :=
  let n := N_of_ascii c in ((48 <=? n) && (n <=? 57))%N.

Definition digit_val (c : ascii) : Z := Z.of_N (N_of_ascii c) - 48.

(** The value of a string of ASCII digits. *)
Definition Z_of_digits (s : string) : Z :=
  fold_left (fun acc c => 10 * acc + digit_val c)%Z (list_ascii_of_string s) 0%Z.

(** The longest prefix of digits, and the rest. *)
Fixpoint span_digits (s : string) : string * string :=
  match s with
  | String c s' =>
      if is_digit c then
        let '(d, r) := span_digits s' in (String c d, r)
      else ("", s)
  | "" => ("", "")
  end.

(** [int] to [float]: the nearest double; an [int] beyond the doubles is an
    [OverflowError]. *)
Definition float_of_int (z : Z) : result float :=
  match binary_normalize prec emax z 0 false with
  | S754_infinity _ => Raise OverflowError
  | x => Ok (SF2Prim x)
  end.

(** The double nearest to [digits * 10 ^ exp10], negated when [neg]
    (so that the text [-0.0] is the negative zero). *)
Definition float_of_decimal (neg : bool) (digits exp10 : Z) : float :=
  let q := match exp10 with
           | Zneg k => digits # (Pos.pow 10 k)
           | _ => inject_Z (digits * 10 ^ exp10)
           end in
  let x := nearest_float q in
  if neg then PrimFloat.opp x else x.

End Dec.

(** ** JSON values and [json.loads]

    The decoder follows the scanner of Python's [json] module with its default
    settings (strict strings, [NaN], [Infinity] and [-Infinity] accepted, a
    repeated key keeps its last value).  Recursion is on [fuel]; running out
    of it is Python's [RecursionError], which [loads] never meets
    ([loads_fuel_enough]). *)

#[warnings="-register-all"]
Inductive json : Type :=
| JNull
| JBool (b : bool)
| JInt (n : Z)
| JFloat (f : float)
| JStr (s : string)
| JList (l : list json)
| JDict (d : gmap string json).

Module Json.

Definition decode_error {A : Type} (msg : string) : result A :=
  Raise (JSONDecodeError msg).

Definition is_ws (c : ascii) : bool :=
  let n := N_of_ascii c in
  ((n =? 32) || (n =? 9) || (n =? 10) || (n =? 13))%N.

Fixpoint skip_ws (s : string) : string :=
  match s with
  | String c s' => if is_ws c then skip_ws s' else s
  | "" => ""
  end.

Definition hex_val (c : ascii) : option N :=
  let n := N_of_ascii c in
  if ((48 <=? n) && (n <=? 57))%N then Some (n - 48)%N
  else if ((65 <=? n) && (n <=? 70))%N then Some (n - 55)%N
  else if ((97 <=? n) && (n <=? 102))%N then Some (n - 87)%N
  else None.

Definition hex4 (a b c d : ascii) : option N :=
  match hex_val a, hex_val b, hex_val c, hex_val d with
  | Some x, Some y, Some z, Some w => Some (((x * 16 + y) * 16 + z) * 16 + w)%N
  | _, _, _, _ => None
  end.

(** The UTF-8 encoding of a code point (a lone surrogate is encoded like any
    other three-byte code point). *)
Definition chr (cp : N) : string :=
  (if cp <? 128 then Str.of_bytes [cp]
   else if cp <? 2048 then
     Str.of_bytes [192 + cp / 64; 128 + cp mod 64]
   else if cp <? 65536 then
     Str.of_bytes [224 + cp / 4096; 128 + (cp / 64) mod 64; 128 + cp mod 64]
   else
     Str.of_bytes [240 + cp / 262144; 128 + (cp / 4096) mod 64;
                   128 + (cp / 64) mod 64; 128 + cp mod 64])%N.

Definition is_high_surrogate (u : N) : bool := ((55296 <=? u) && (u <=? 56319))%N.
Definition is_low_surrogate (u : N) : bool := ((56320 <=? u) && (u <=? 57343))%N.

Definition backslash (c : ascii) : option string :=
  if Ascii.eqb c Str.dquote then Some (String Str.dquote "")
  else if Ascii.eqb c "\" then Some "\"
  else if Ascii.eqb c "/" then Some "/"
  else if Ascii.eqb c "b" then Some (Str.of_bytes [8%N])
  else if Ascii.eqb c "f" then Some (Str.of_bytes [12%N])
  else if Ascii.eqb c "n" then Some (Str.of_bytes [10%N])
  else if Ascii.eqb c "r" then Some (Str.of_bytes [13%N])
  else if Ascii.eqb c "t" then Some (Str.of_bytes [9%N])
  else None.

Definition emit (piece : string) (k : result (string * string))
  : result (string * string) :=
  '(str, rest) ← k; Ok (piece ++ str, rest).

(** [scanstring s]: [s] starts just after an opening quote; the decoded
    string and what follows the closing quote. *)
Fixpoint scanstring (s : string) : result (string * string) :=
  match s with
  | "" => decode_error "Unterminated string starting at"
  | String c s' =>
      if Ascii.eqb c Str.dquote then Ok ("", s')
      else if (N_of_ascii c <? 32)%N then decode_error "Invalid control character at"
      else if Ascii.eqb c "\" then
        match s' with
        | "" => decode_error "Unterminated string starting at"
        | String "u" (String h1 (String h2 (String h3 (String h4 r)))) =>
            match hex4 h1 h2 h3 h4 with
            | None => decode_error "Invalid \uXXXX escape"
            | Some uni =>
                match r with
                | String "\" (String "u" r1) =>
                    if is_high_surrogate uni then
                      match r1 with
                      | String g1 (String g2 (String g3 (String g4 r2))) =>
                          match hex4 g1 g2 g3 g4 with
                          | None => decode_error "Invalid \uXXXX escape"
                          | Some uni2 =>
                              if is_low_surrogate uni2 then
                                emit (chr (65536 + (uni - 55296) * 1024 + (uni2 - 56320))%N)
                                     (scanstring r2)
                              else emit (chr uni) (scanstring r)
                          end
                      | _ => decode_error "Invalid \uXXXX escape"
                      end
                    else emit (chr uni) (scanstring r)
                | _ => emit (chr uni) (scanstring r)
                end
            end
        | String "u" _ => decode_error "Invalid \uXXXX escape"
        | String e s'' =>
            match backslash e with
            | Some piece => emit piece (scanstring s'')
            | None => decode_error "Invalid \escape"
            end
        end
      else emit (String c "") (scanstring s')
  end.

(** The number at the start of [s], if any: an [int] when it has neither
    fraction nor exponent, a [float] otherwise. *)
Definition match_number (s : string) : option (json * string) :=
  let '(neg, s1) := match s with
                    | String "-" s' => (true, s')
                    | _ => (false, s)
                    end in
  let integer :=
    match s1 with
    | String "0" s2 => Some ("0", s2)
    | String c _ => if Dec.is_digit c then Some (Dec.span_digits s1) else None
    | "" => None
    end in
  match integer with
  | None => None
  | Some (ipart, s2) =>
      let '(frac, s3) :=
        match s2 with
        | String "." t =>
            let '(f, t') := Dec.span_digits t in
            if String.eqb f "" then (None, s2) else (Some f, t')
        | _ => (None, s2)
        end in
      let '(expo, s4) :=
        match s3 with
        | String c t =>
            if Ascii.eqb c "e" || Ascii.eqb c "E" then
              let '(eneg, t1) := match t with
                                 | String "-" t' => (true, t')
                                 | String "+" t' => (false, t')
                                 | _ => (false, t)
                                 end in
              let '(ds, t2) := Dec.span_digits t1 in
              if String.eqb ds "" then (None, s3)
              else (Some (if eneg then - Dec.Z_of_digits ds else Dec.Z_of_digits ds)%Z, t2)
            else (None, s3)
        | "" => (None, s3)
        end in
      match frac, expo with
      | None, None =>
          let n := Dec.Z_of_digits ipart in
          Some (JInt (if neg then - n else n)%Z, s4)
      | _, _ =>
          let f := default "" frac in
          let e := default 0%Z expo in
          Some (JFloat (Dec.float_of_decimal neg
                         (Dec.Z_of_digits (ipart ++ f))
                         (e - Z.of_nat (String.length f))), s4)
      end
  end.

Definition dict_of_pairs (pairs : list (string * json)) : gmap string json :=
  fold_left (fun d kv => <[kv.1 := kv.2]> d) pairs ∅.

(** [scan_once fuel s]: the JSON value at the start of [s] and the rest.
    [scan_members] and [scan_items] continue an object after its opening
    brace and leading spaces, and an array where an item must start. *)
Fixpoint scan_once (fuel : nat) (s : string) : result (json * string) :=
  match fuel with
  | O => Raise RecursionError
  | S fuel' =>
      let scan_members :=
        fix scan_members (n : nat) (s : string) (pairs : list (string * json))
          : result (json * string) :=
          match n with
          | O => Raise RecursionError
          | S n' =>
              match s with
              | String c t =>
                  if Ascii.eqb c Str.dquote then
                    '(key, t1) ← scanstring t;
                    match skip_ws t1 with
                    | String ":" t2 =>
                        '(v, t3) ← scan_once fuel' (skip_ws t2);
                        let pairs' := (pairs ++ [(key, v)])%list in
                        match skip_ws t3 with
                        | String "}" t4 => Ok (JDict (dict_of_pairs pairs'), t4)
                        | String "," t4 => scan_members n' (skip_ws t4) pairs'
                        | _ => decode_error "Expecting ',' delimiter"
                        end
                    | _ => decode_error "Expecting ':' delimiter"
                    end
                  else decode_error "Expecting property name enclosed in double quotes"
              | "" => decode_error "Expecting property name enclosed in double quotes"
              end
          end in
      let scan_items :=
        fix scan_items (n : nat) (s : string) (items : list json)
          : result (json * string) :=
          match n with
          | O => Raise RecursionError
          | S n' =>
              '(v, t1) ← scan_once fuel' s;
              let items' := (items ++ [v])%list in
              match skip_ws t1 with
              | String "]" t2 => Ok (JList items', t2)
              | String "," t2 => scan_items n' (skip_ws t2) items'
              | _ => decode_error "Expecting ',' delimiter"
              end
          end in
      match s with
      | String "{" t =>
          match skip_ws t with
          | String "}" r => Ok (JDict ∅, r)
          | t' => scan_members fuel' t' []
          end
      | String "[" t =>
          match skip_ws t with
          | String "]" r => Ok (JList [], r)
          | t' => scan_items fuel' t' []
          end
      | _ =>
          match Str.strip_prefix (String Str.dquote "") s with
          | Some t => '(str, r) ← scanstring t; Ok (JStr str, r)
          | None =>
          match Str.strip_prefix "null" s with
          | Some r => Ok (JNull, r)
          | None =>
          match Str.strip_prefix "true" s with
          | Some r => Ok (JBool true, r)
          | None =>
          match Str.strip_prefix "false" s with
          | Some r => Ok (JBool false, r)
          | None =>
          match match_number s with
          | Some r => Ok r
          | None =>
          match Str.strip_prefix "NaN" s with
          | Some r => Ok (JFloat nan, r)
          | None =>
          match Str.strip_prefix "Infinity" s with
          | Some r => Ok (JFloat infinity, r)
          | None =>
          match Str.strip_prefix "-Infinity" s with
          | Some r => Ok (JFloat neg_infinity, r)
          | None => decode_error "Expecting value"
          end end end end end end end end
      end
  end.

(** [json.loads s]. *)
Definition loads (s : string) : result json :=
  '(v, rest) ← scan_once (S (String.length s)) (skip_ws s);
  match skip_ws rest with
  | "" => Ok v
  | _ => decode_error "Extra data"
  end.

End Json.

(** ** The builtin [float] on a decoded JSON value *)

Module Float.

Definition lower (c : ascii) : ascii :=
  let n := N_of_ascii c in
  if ((65 <=? n) && (n <=? 90))%N then ascii_of_N (n + 32) else c.

Fixpoint lower_str (s : string) : string :=
  match s with
  | "" => ""
  | String c s' => String (lower c) (lower_str s')
  end.

(** Digits after a first digit, single underscores allowed between two
    digits: the digits read, and the rest. *)
Fixpoint digitpart_tail (s : string) : string * string :=
  match s with
  | String c s' =>
      if Dec.is_digit c then
        let '(d, r) := digitpart_tail s' in (String c d, r)
      else if Ascii.eqb c "_" then
        match s' with
        | String c2 s'' =>
            if Dec.is_digit c2 then
              let '(d, r) := digitpart_tail s'' in (String c2 d, r)
            else ("", s)
        | "" => ("", s)
        end
      else ("", s)
  | "" => ("", "")
  end.

Definition digitpart (s : string) : option (string * string) :=
  match s with
  | String c s' =>
      if Dec.is_digit c then
        let '(d, r) := digitpart_tail s' in Some (String c d, r)
      else None
  | "" => None
  end.

Definition sign (s : string) : bool * string :=
  match s with
  | String "-" s' => (true, s')
  | String "+" s' => (false, s')
  | _ => (false, s)
  end.

(** The exponent part and the end of the text. *)
Definition exponent (s : string) : option Z :=
  match s with
  | "" => Some 0%Z
  | String c t =>
      if Ascii.eqb c "e" || Ascii.eqb c "E" then
        let '(eneg, t1) := sign t in
        match digitpart t1 with
        | Some (ds, "") => Some (if eneg then - Dec.Z_of_digits ds else Dec.Z_of_digits ds)%Z
        | _ => None
        end
      else None
  end.

(** [intpart "." fracpart], [intpart "."], [intpart] or ["." fracpart],
    then the exponent: digits, and power of ten. *)
Definition floatnumber (s : string) : option (Z * Z) :=
  let finish (ip fp rest : string) :=
    match exponent rest with
    | Some e => Some (Dec.Z_of_digits (ip ++ fp), (e - Z.of_nat (String.length fp))%Z)
    | None => None
    end in
  match digitpart s with
  | Some (ip, String "." t) =>
      match digitpart t with
      | Some (fp, rest) => finish ip fp rest
      | None => finish ip "" t
      end
  | Some (ip, rest) => finish ip "" rest
  | None =>
      match s with
      | String "." t =>
          match digitpart t with
          | Some (fp, rest) => finish "" fp rest
          | None => None
          end
      | _ => None
      end
  end.

(** [float(s)] for a [str]. *)
Definition of_str (s : string) : result float :=
  let '(neg, body) := sign (Str.strip s) in
  let signed (x : float) := if neg then PrimFloat.opp x else x in
  let word := lower_str body in
  if String.eqb word "inf" || String.eqb word "infinity" then Ok (signed infinity)
  else if String.eqb word "nan" then Ok (signed nan)
  else
    match floatnumber body with
    | Some (digits, exp10) => Ok (Dec.float_of_decimal neg digits exp10)
    | None => Raise (ValueError "could not convert string to float")
    end.

(** [float(v)]. *)
Definition of_json (v : json) : result float :=
  match v with
  | JInt n => Dec.float_of_int n
  | JFloat f => Ok f
  | JBool b => Ok (if b then 1 else 0)%float
  | JStr s => of_str s
  | JNull | JList _ | JDict _ =>
      Raise (TypeError "float() argument must be a string or a real number")
  end.

End Float.

(** ** The interpreter: [parse_with_gemini] (app.py, lines 76-130) *)

(** What [st.error] is called with. *)
Inductive st_message : Type :=
| MissingRequiredKeys
    (* "Response is missing required keys." *)
| InvalidCategory (category : json) (valid : gset string)
    (* "Invalid category: {result['category']}. Must be one of {valid_categories}" *)
| FailedToParseJSON (e : exn)
    (* "Failed to parse JSON: {e}" *)
| GeminiAPIError (e : exn).
    (* "Gemini API error: {str(e)}" *)

(** One call: the messages shown, and the value returned ([None], or the
    tuple). *)
Record outcome : Type := {
  shown : list st_message;
  returned : option (float * json * json * json)
}.

Definition error_none (m : st_message) : outcome :=
  {| shown := [m]; returned := None |}.

Definition return_tuple (t : float * json * json * json) : outcome :=
  {| shown := []; returned := Some t |}.

Definition required_keys : gset string :=
  {[ "value"; "from_unit"; "to_unit"; "category" ]}.

Definition valid_categories : gset string :=
  {[ "Length"; "Weight"; "Temperature"; "Volume" ]}.

(** [v.keys()]: only a dict has keys. *)
Definition keys (v : json) : result (gset string) :=
  match v with
  | JDict d => Ok (dom d)
  | _ => Raise (AttributeError "object has no attribute 'keys'")
  end.

(** [v[k]] for a string [k]. *)
Definition subscript (v : json) (k : string) : result json :=
  match v with
  | JDict d => getitem d k
  | JList _ | JStr _ => Raise (TypeError "indices must be integers or slices, not str")
  | _ => Raise (TypeError "object is not subscriptable")
  end.

(** [v in s] for a set [s] of strings: [v] is hashed first, and a list or a
    dict has no hash; a value that is not a string equals none of them. *)
Definition member (v : json) (s : gset string) : result bool :=
  match v with
  | JStr x => Ok (bool_decide (x ∈ s))
  | JList _ => Raise (TypeError "unhashable type: 'list'")
  | JDict _ => Raise (TypeError "unhashable type: 'dict'")
  | _ => Ok false
  end.

(** The f-string of lines 80-91. *)
Definition prompt (input_text : string) : string :=
  let nl := Str.newline in
  let ind := "        " in
  nl ++ ind ++ Str.dq "Parse this conversion request: '" ++ input_text ++ Str.dq "'" ++
  nl ++ ind ++ "Return ONLY valid JSON in this format:" ++
  nl ++ ind ++ "{" ++
  nl ++ ind ++ Str.dq "    'value': number," ++
  nl ++ ind ++ Str.dq "    'from_unit': 'string'," ++
  nl ++ ind ++ Str.dq "    'to_unit': 'string'," ++
  nl ++ ind ++ Str.dq "    'category': 'string'" ++
  nl ++ ind ++ "}" ++
  nl ++ ind ++ Str.dq "The category must be one of: 'Length', 'Weight', 'Temperature', or 'Volume'." ++
  nl ++ ind ++ Str.dq "Use full unit names like 'centimeters' not 'cm', 'kilograms' not 'kg'." ++
  nl ++ ind.

(** Lines 104-107: the payload between code fences. *)
Definition strip_fences (raw_response : string) : result string :=
  if Str.contains "```json" raw_response then
    after ← Str.index (Str.split "```json" raw_response) 1;
    inside ← Str.index (Str.split "```" after) 0;
    Ok (Str.strip inside)
  else if Str.contains "```" raw_response then
    inside ← Str.index (Str.split "```" raw_response) 1;
    Ok (Str.strip inside)
  else Ok raw_response.

(** Lines 110-122: the body of the inner [try]. *)
Definition validate (raw_response : string) : result outcome :=
  result ← Json.loads raw_response;
  ks ← keys result;
  if negb (bool_decide (required_keys ⊆ ks)) then
    Ok (error_none MissingRequiredKeys)
  else
    category ← subscript result "category";
    valid ← member category valid_categories;
    if negb valid then
      Ok (error_none (InvalidCategory category valid_categories))
    else
      value ← subscript result "value";
      value ← Float.of_json value;
      from_unit ← subscript result "from_unit";
      to_unit ← subscript result "to_unit";
      category ← subscript result "category";
      Ok (return_tuple (value, from_unit, to_unit, category)).

(** [generate_content p] stands for the call to the service with prompt [p]
    (lines 78 and 93-100) followed by [response.text]: the text, or the
    exception either raises. *)
Definition parse_with_gemini (generate_content : string -> result string)
    (input_text : string) : outcome :=
  let body :=
    text ← generate_content (prompt input_text);
    raw_response ← strip_fences (Str.strip text);
    match validate raw_response with
    | Raise (JSONDecodeError msg) =>
        Ok (error_none (FailedToParseJSON (JSONDecodeError msg)))
    | r => r
    end in
  match body with
  | Ok o => o
  | Raise e => error_none (GeminiAPIError e)
  end.

(** ** Sample responses of the service *)

(** A JSON object between code fences. *)
Definition fenced_response : string :=
  "```json" ++ Str.newline ++
  Str.dq "{'value': 5, 'from_unit': 'feet', 'to_unit': 'meters', 'category': 'Length'}" ++
  Str.newline ++ "```".

Definition response_without_category : string :=
  Str.dq "{'value': 5, 'from_unit': 'feet', 'to_unit': 'meters'}".

Definition response_speed : string :=
  Str.dq "{'value': 5, 'from_unit': 'feet', 'to_unit': 'meters', 'category': 'Speed'}".

Definition response_category_list : string :=
  Str.dq "{'value': 5, 'from_unit': 'feet', 'to_unit': 'meters', 'category': ['Speed']}".

Definition response_value_words : string :=
  Str.dq "{'value': 'five', 'from_unit': 'feet', 'to_unit': 'meters', 'category': 'Length'}".

(** A service that answers [text] to every prompt. *)
Definition answers (text : string) : string -> result string := fun _ => Ok text.

(** ** Rounding in binary64

    What the error analysis of the double-precision reading needs: where a
    shifted quotient lies, the size of one rounding, and budgets that follow
    a value through the operations of [convert_units]. *)

Section RoundingModel.
Local Open Scope Z_scope.

(** [located mrs N D]: the record [mrs] holds the integer part of [N / D]
    and the position of the rest with respect to one half. *)
Definition located (mrs : shr_record) (N D : Z) : Prop :=
  let m := shr_m mrs in
  0 <= m ∧ 0 < D ∧
  match shr_r mrs, shr_s mrs with
  | false, false => N = m * D
  | false, true => m * D < N ∧ 2 * (N - m * D) < D
  | true, false => 2 * (N - m * D) = D
  | true, true => D < 2 * (N - m * D) ∧ N < (m + 1) * D
  end.

Definition SF_one : spec_float := S754_finite false 4503599627370496 (-52).

End RoundingModel.

Section ErrorBudgets.
Local Open Scope Q_scope.

Definition SF_finite (x : spec_float) : bool :=
  match x with
  | S754_zero _ | S754_finite _ _ _ => true
  | _ => false
  end.

Definition sgn (s : bool) : Q := if s then -1 else 1.

(** One rounding to nearest moves a value [v] with [|v| < ceiling] by at
    most [unit_roundoff * |v| + eta]. *)
Definition unit_roundoff : Q := 2 ^ (-53).
Definition eta : Q := 2 ^ (-1075).
Definition ceiling : Q := 2 ^ 1023.

(** ** Straight-line arithmetic with constants

    What [convert_units] computes on valid units is a short sequence of
    operations, each between the running value and a literal of the source. *)

Inductive op : Type :=
| Mul (q : Q)
| Div (q : Q)
| Add (q : Q)
| Sub (q : Q).

Definition apply_op {num : Type} `{Number num} (x : num) (o : op) : num :=
  match o with
  | Mul q => x * lit q
  | Div q => x / lit q
  | Add q => x + lit q
  | Sub q => x - lit q
  end%num.

Definition apply_ops {num : Type} `{Number num} (ops : list op) (x : num) : num :=
  fold_left apply_op ops x.

(** The same sequence in exact arithmetic, a literal [q] standing for
    [ref q]: the double it denotes ([double_of]), or [q] itself. *)
Definition double_of (q : Q) : Q := float_toQ (nearest_float q).

Definition ideal_op (ref : Q -> Q) (X : Q) (o : op) : Q :=
  match o with
  | Mul q => X * ref q
  | Div q => X / ref q
  | Add q => X + ref q
  | Sub q => X - ref q
  end.

Definition ideal (ref : Q -> Q) (ops : list op) (X : Q) : Q :=
  fold_left (ideal_op ref) ops X.

(** Bounds that are affine in the size [|V|] of the input: the computed
    value is within [err_rel * |V| + err_abs] of the ideal one, which is at
    most [mag_rel * |V| + mag_abs] in size. *)
Record budget : Type := {
  err_rel : Q;
  err_abs : Q;
  mag_rel : Q;
  mag_abs : Q
}.

(** The most a computed value can be, for inputs up to [vmax]. *)
Definition reach (vmax : Q) (b : budget) : Q :=
  (mag_rel b + err_rel b) * vmax + (mag_abs b + err_abs b).

(** After a product by a constant of size [cf], standing for an ideal one of
    size [c] that it misses by [d]. *)
Definition scale (b : budget) (cf c d : Q) : budget :=
  {| err_rel := err_rel b * cf + unit_roundoff * ((mag_rel b + err_rel b) * cf)
                + mag_rel b * d;
     err_abs := err_abs b * cf + unit_roundoff * ((mag_abs b + err_abs b) * cf)
                + mag_abs b * d + eta;
     mag_rel := mag_rel b * c;
     mag_abs := mag_abs b * c |}.

(** After a sum with such a constant. *)
Definition shift (b : budget) (cf c d : Q) : budget :=
  {| err_rel := err_rel b + unit_roundoff * (mag_rel b + err_rel b);
     err_abs := err_abs b + unit_roundoff * (mag_abs b + err_abs b + cf) + d + eta;
     mag_rel := mag_rel b;
     mag_abs := mag_abs b + c |}.

(** The same bounds in small numbers: the part of the absolute error that
    is a multiple of [eta] is kept as its multiplier. *)
Record tally : Type := {
  rel_err : Q;
  fix_err : Q;
  eta_err : Q;
  rel_mag : Q;
  abs_mag : Q
}.

Definition budget_of (t : tally) : budget :=
  {| err_rel := rel_err t;
     err_abs := fix_err t + eta_err t * eta;
     mag_rel := rel_mag t;
     mag_abs := abs_mag t |}.

Definition tally_start : tally :=
  {| rel_err := 0; fix_err := 0; eta_err := 0; rel_mag := 1; abs_mag := 0 |}.

Definition tally_scale (t : tally) (cf c d : Q) : tally :=
  {| rel_err := rel_err t * cf + unit_roundoff * ((rel_mag t + rel_err t) * cf)
                + rel_mag t * d;
     fix_err := fix_err t * cf + unit_roundoff * ((abs_mag t + fix_err t) * cf)
                + abs_mag t * d;
     eta_err := eta_err t * cf + unit_roundoff * (eta_err t * cf) + 1;
     rel_mag := rel_mag t * c;
     abs_mag := abs_mag t * c |}.

Definition tally_shift (t : tally) (cf c d : Q) : tally :=
  {| rel_err := rel_err t + unit_roundoff * (rel_mag t + rel_err t);
     fix_err := fix_err t + unit_roundoff * (abs_mag t + fix_err t + cf) + d;
     eta_err := eta_err t + unit_roundoff * eta_err t + 1;
     rel_mag := rel_mag t;
     abs_mag := abs_mag t + c |}.

(** The same tally, with every fraction in lowest terms. *)
Definition tally_reduce (t : tally) : tally :=
  {| rel_err := Qred (rel_err t);
     fix_err := Qred (fix_err t);
     eta_err := Qred (eta_err t);
     rel_mag := Qred (rel_mag t);
     abs_mag := Qred (abs_mag t) |}.

Definition tally_step (ref : Q -> Q) (t : tally) (o : op) : tally :=
  tally_reduce
    match o with
    | Mul q =>
        tally_scale t (Qabs (double_of q)) (Qabs (ref q))
          (Qabs (double_of q - ref q))
    | Div q =>
        tally_scale t (/ Qabs (double_of q)) (/ Qabs (ref q))
          (Qabs (/ double_of q - / ref q))
    | Add q | Sub q =>
        tally_shift t (Qabs (double_of q)) (Qabs (ref q))
          (Qabs (double_of q - ref q))
    end.

(** For inputs of size between 1 and [vmax], a computed value is at most
    [vmax * spread t] in size. *)
Definition spread (t : tally) : Q :=
  rel_mag t + rel_err t + abs_mag t + fix_err t + eta_err t.

Definition Qlt_bool (a b : Q) : bool := negb (Qle_bool b a).

(** No overflow at [o] when [vmax * headroom] is at most [ceiling]; the
    constant finite, a divisor not zero. *)
Definition op_ok (ref : Q -> Q) (headroom : Q) (t : tally) (o : op) : bool :=
  match o with
  | Mul q =>
      is_finite (nearest_float q)
      && Qlt_bool (spread t * Qabs (double_of q)) headroom
  | Div q =>
      is_finite (nearest_float q)
      && negb (Qeq_bool (double_of q) 0) && negb (Qeq_bool (ref q) 0)
      && Qlt_bool (spread t * / Qabs (double_of q)) headroom
  | Add q | Sub q =>
      is_finite (nearest_float q)
      && Qlt_bool (spread t + Qabs (double_of q)) headroom
  end.

(** The tally after [ops], when no operation can overflow. *)
Fixpoint check (ref : Q -> Q) (headroom : Q) (t : tally) (ops : list op)
  : option tally :=
  match ops with
  | [] => Some t
  | o :: rest =>
      if op_ok ref headroom t o then check ref headroom (tally_step ref t o) rest
      else None
  end.

(** [ideal ref ops] as an affine function: slope and intercept. *)
Definition affine_op (ref : Q -> Q) (ab : Q * Q) (o : op) : Q * Q :=
  let '(a, b) := ab in
  match o with
  | Mul q => (Qred (a * ref q), Qred (b * ref q))
  | Div q => (Qred (a / ref q), Qred (b / ref q))
  | Add q => (a, Qred (b + ref q))
  | Sub q => (a, Qred (b - ref q))
  end.

Definition affine (ref : Q -> Q) (ops : list op) : Q * Q :=
  fold_left (affine_op ref) ops (1, 0).

Definition nonzero_divisors (ref : Q -> Q) (ops : list op) : bool :=
  forallb (fun o => match o with
                    | Div q => negb (Qeq_bool (ref q) 0)
                    | _ => true
                    end) ops.

Definition within (b : budget) (V : Q) (x : float) (X : Q) : Prop :=
  is_finite x = true ∧
  Qabs (float_toQ x - X) <= err_rel b * Qabs V + err_abs b ∧
  Qabs X <= mag_rel b * Qabs V + mag_abs b ∧
  0 <= err_rel b ∧ 0 <= err_abs b ∧ 0 <= mag_rel b ∧ 0 <= mag_abs b.

(** What a tally promises of a computed value [x] against the ideal [X]. *)
Definition sound (t : tally) (V : Q) (x : float) (X : Q) : Prop :=
  within (budget_of t) V x X ∧ 0 <= fix_err t ∧ 0 <= eta_err t.

(** The operations of [convert_units], for units it knows. *)
Definition to_celsius_ops (scale : string) : option (list op) :=
  if String.eqb scale "Celsius" then Some []
  else if String.eqb scale "Fahrenheit" then Some [Sub 32; Mul 5; Div 9]
  else if String.eqb scale "Kelvin" then Some [Sub 273.15]
  else None.

Definition from_celsius_ops (scale : string) : option (list op) :=
  if String.eqb scale "Celsius" then Some []
  else if String.eqb scale "Fahrenheit" then Some [Mul 9; Div 5; Add 32]
  else if String.eqb scale "Kelvin" then Some [Add 273.15]
  else None.

Definition ops_of (category from_unit to_unit : string) : option (list op) :=
  if String.eqb category "Temperature" then
    a ← to_celsius_ops from_unit;
    b ← from_celsius_ops to_unit;
    Some (a ++ b)%list
  else
    f ← factor (num := Q) category from_unit;
    t ← factor (num := Q) category to_unit;
    Some [Mul f; Div t].

(** Every selectable triple of a list of categories satisfies [P]. *)
Definition all_pairs (P : string -> string -> string -> bool) (cats : list string)
  : bool :=
  forallb (fun c =>
    match unit_options !! c with
    | Some units => forallb (fun f => forallb (fun t => P c f t) units) units
    | None => false
    end) cats.

(** The budget of a conversion there and back stays within [rel] and
    [abs], and in exact arithmetic on the doubles of the literals the two
    conversions undo one another. *)
Definition round_trip_ok (headroom rel fixed tiny : Q) (c f t : string) : bool :=
  match ops_of c f t, ops_of c t f with
  | Some there, Some back =>
      let ops := (there ++ back)%list in
      match check double_of headroom tally_start ops with
      | Some b =>
          Qle_bool (rel_err b) rel && Qle_bool (fix_err b) fixed
          && Qle_bool (eta_err b) tiny
          && nonzero_divisors double_of ops
          && Qeq_bool (fst (affine double_of ops)) 1
          && Qeq_bool (snd (affine double_of ops)) 0
      | None => false
      end
  | _, _ => false
  end.

(** A literal read as the decimal number that is written. *)
Definition as_written (q : Q) : Q := q.

(** One conversion against decimal arithmetic: the error relative to the
    exact result (when that is a multiple of the input), or to the input. *)
Definition accurate_ok (relative_to_result : bool) (headroom rel fixed tiny : Q)
    (c f t : string) : bool :=
  match ops_of c f t with
  | Some ops =>
      match check as_written headroom tally_start ops with
      | Some b =>
          Qle_bool (fix_err b) fixed && Qle_bool (eta_err b) tiny
          && nonzero_divisors as_written ops
          && if relative_to_result then
               Qle_bool (rel_err b) (rel * Qabs (fst (affine as_written ops)))
               && Qeq_bool (snd (affine as_written ops)) 0
             else Qle_bool (rel_err b) rel
      | None => false
      end
  | None => false
  end.

End ErrorBudgets.

(** ** The two modes of the page (app.py, lines 211-229 and 231-250)

    [parse_with_gemini] hands over what the service wrote: the units are any
    JSON values, so the engine is read here as Python runs it on them. *)

(** What a handler meets: an exception of the statically typed reading, or
    the [KeyError] of a key that is no string. *)
Inductive raised : Type :=
| Exn (e : exn)
| KeyErrorOf (key : json).

Definition lift {A : Type} (r : result A) : A + raised :=
  match r with
  | Ok v => inl v
  | Raise e => inr (Exn e)
  end.

(** [v == s] for a string literal [s]. *)
Definition is_str (v : json) (s : string) : bool :=
  match v with
  | JStr x => String.eqb x s
  | _ => false
  end.

(** [d[k]] for a dict [d] with string keys and any [k]: a list or a dict has
    no hash; any other value that is no string is a key of no such dict. *)
Definition getitem_any {V : Type} (d : gmap string V) (k : json) : V + raised :=
  match k with
  | JStr s => lift (getitem d s)
  | JList _ => inr (Exn (TypeError "unhashable type: 'list'"))
  | JDict _ => inr (Exn (TypeError "unhashable type: 'dict'"))
  | _ => inr (KeyErrorOf k)
  end.

(** [convert_units] (lines 28-73) on a float and three JSON values. *)
Definition convert_units_any (value : float) (from_unit to_unit category : json)
  : float + raised :=
  if is_str category "Temperature" then
    let celsius :=
      if is_str from_unit "Fahrenheit" then
        ((value - lit 32) * lit 5 / lit 9)%num
      else if is_str from_unit "Kelvin" then
        (value - lit 273.15)%num
      else value in
    if is_str to_unit "Fahrenheit" then
      inl ((celsius * lit 9 / lit 5) + lit 32)%num
    else if is_str to_unit "Kelvin" then
      inl (celsius + lit 273.15)%num
    else inl celsius
  else
    match getitem_any conversions category with
    | inr e => inr e
    | inl table =>
        match getitem_any table from_unit with
        | inr e => inr e
        | inl from_entry =>
            match lift (mul_entry value from_entry) with
            | inr e => inr e
            | inl to_base =>
                match getitem_any conversions category with
                | inr e => inr e
                | inl table' =>
                    match getitem_any table' to_unit with
                    | inr e => inr e
                    | inl to_entry => lift (div_entry to_base to_entry)
                    end
                end
            end
        end
    end.

(** What the page shows: [st.success], [st.error] and [st.warning] calls. *)
Inductive notice : Type :=
| Converted (value : float) (from_unit : json) (result : float) (to_unit : json)
    (* "{value} {from_unit} = **{result:.4f} {to_unit}**" *)
| EnterPositiveValue
    (* "Please enter a positive value!" *)
| UnsupportedUnit (key : json)
    (* "Unsupported unit: {e}. Use full names like 'meters'!" *)
| InvalidNumber
    (* "Invalid number in request!" *)
| CouldNotParse
    (* "Couldn't parse your request. Try again!" *)
| EnterRequestFirst
    (* "Please enter a request first!" *)
| Reported (m : st_message).
    (* shown by [parse_with_gemini] *)

(** One click: what was shown, and the exception no handler caught. *)
Record page : Type := {
  notices : list notice;
  uncaught : option raised
}.

Definition shows (l : list notice) : page :=
  {| notices := l; uncaught := None |}.

(** Lines 224-229: the button of the manual tab, for the number and the three
    selections. *)
Definition manual_mode (value : float) (from_unit to_unit category : string)
  : page :=
  if (0 <=? value)%float then
    match convert_units value from_unit to_unit category with
    | Ok result => shows [Converted value (JStr from_unit) result (JStr to_unit)]
    | Raise e => {| notices := []; uncaught := Some (Exn e) |}
    end
  else shows [EnterPositiveValue].

(** Lines 234-250: the button of the AI tab.  [float(value)] of line 241 is
    applied to a float, and is that float. *)
Definition ai_mode (generate_content : string -> result string)
    (user_input : string) : page :=
  if String.eqb user_input "" then shows [EnterRequestFirst]
  else
    let parsed := parse_with_gemini generate_content user_input in
    let reported := map Reported (shown parsed) in
    match returned parsed with
    | Some (value, from_unit, to_unit, category) =>
        match convert_units_any value from_unit to_unit category with
        | inl result =>
            shows (reported ++ [Converted value from_unit result to_unit])
        | inr (Exn (KeyError key)) =>
            shows (reported ++ [UnsupportedUnit (JStr key)])
        | inr (KeyErrorOf key) => shows (reported ++ [UnsupportedUnit key])
        | inr (Exn (ValueError _)) => shows (reported ++ [InvalidNumber])
        | inr e => {| notices := reported; uncaught := Some e |}
        end
    | None => shows (reported ++ [CouldNotParse])
    end.

Definition hashable (v : json) : bool :=
  match v with
  | JList _ | JDict _ => false
  | _ => true
  end.

(** A response whose [from_unit] is a JSON array. *)
Definition response_unit_list : string :=
  Str.dq "{'value': 5, 'from_unit': ['feet'], 'to_unit': 'meters', 'category': 'Length'}".

(** ** Termination of the decoder *)

(** What a scan yields: never [RecursionError], and on success a rest
    shorter than [bound]. *)
Definition scanned {A : Type} (bound : nat) (r : result (A * string)) : Prop :=
  match r with
  | Ok (_, rest) => (String.length rest < bound)%nat
  | Raise e => e ≠ RecursionError
  end.

(** * Properties *)

(** ** The conversion engine *)

Ltac pick_member H :=
  repeat (apply elem_of_cons in H as [-> | H]); [.. | by apply elem_of_nil in H].

Section EngineFacts.
Context {num : Type} `{Number num}.

Lemma unit_options_cases (category : string) (units : list string) :
  unit_options !! category = Some units →
  category ∈ categories.
Proof.
  intros Hu. unfold categories.
  destruct (decide (category = "Length")) as [-> | ?]; [set_solver |].
  destruct (decide (category = "Weight")) as [-> | ?]; [set_solver |].
  destruct (decide (category = "Temperature")) as [-> | ?]; [set_solver |].
  destruct (decide (category = "Volume")) as [-> | ?]; [set_solver |].
  unfold unit_options in Hu.
  rewrite !lookup_insert_ne, lookup_singleton_ne in Hu by congruence. discriminate.
Qed.

(** A category outside the four has no table. *)
Lemma conversions_unknown_category (category : string) :
  category ∉ categories → conversions (num := num) !! category = None.
Proof.
  intros Hc. unfold categories in Hc. unfold conversions.
  rewrite !lookup_insert_ne, lookup_singleton_ne; [done | set_solver ..].
Qed.

(** Every table of a multiplicative category holds exactly the units of
    [unit_options], each with a factor. *)
Lemma table_units (category : string) (units : list string) :
  category ∈ ["Length"; "Weight"; "Volume"] →
  unit_options !! category = Some units →
  ∃ table, conversions (num := num) !! category = Some table ∧
    ∀ unit, (unit ∈ units → ∃ f, table !! unit = Some (Factor f)) ∧
            (unit ∉ units → table !! unit = None).
Proof.
  intros Hc Hu. pick_member Hc.
  all: vm_compute in Hu; injection Hu as <-.
  all: eexists; split; [reflexivity |].
  all: intros unit; split.
  all: try (intros Hin; pick_member Hin; eexists; reflexivity).
  all: intros Hn; rewrite !lookup_insert_ne, lookup_singleton_ne; [done | set_solver ..].
Qed.

End EngineFacts.

Section EngineLaws.
Context {num : Type} `{Number num}.

Lemma not_temperature (category : string) :
  category ∈ ["Length"; "Weight"; "Volume"] →
  String.eqb category "Temperature" = false.
Proof. intros Hc. pick_member Hc; reflexivity. Qed.

(** Lines 71-73 on a multiplicative category and two of its units. *)
Lemma convert_units_factor (category : string) (units : list string)
    (from_unit to_unit : string) (value : num) :
  category ∈ ["Length"; "Weight"; "Volume"] →
  unit_options !! category = Some units →
  from_unit ∈ units → to_unit ∈ units →
  ∃ f_from f_to,
    factor category from_unit = Some f_from ∧
    factor category to_unit = Some f_to ∧
    convert_units value from_unit to_unit category = Ok (value * f_from / f_to)%num.
Proof.
  intros Hc Hu Hfrom Hto.
  destruct (table_units category units Hc Hu) as (table & Ht & Hunits).
  destruct (proj1 (Hunits from_unit) Hfrom) as [f_from Hf].
  destruct (proj1 (Hunits to_unit) Hto) as [f_to Hg].
  exists f_from, f_to. unfold factor, convert_units, getitem.
  rewrite (not_temperature _ Hc), Ht, Hf, Hg. simpl.
  rewrite Hf. simpl. rewrite Hg. done.
Qed.

(** An unknown category: [conversions[category]] raises. *)
Lemma convert_units_unknown_category (category from_unit to_unit : string)
    (value : num) :
  category ∉ categories →
  convert_units value from_unit to_unit category = Raise (KeyError category).
Proof.
  intros Hc. unfold convert_units, getitem.
  rewrite (conversions_unknown_category _ Hc).
  destruct (String.eqb_spec category "Temperature") as [-> | _]; [| done].
  exfalso. apply Hc. unfold categories. set_solver.
Qed.

(** A unit outside a multiplicative category's table: the lookup raises,
    for [from_unit] first. *)
Lemma convert_units_unknown_from_unit (category : string) (units : list string)
    (from_unit to_unit : string) (value : num) :
  category ∈ ["Length"; "Weight"; "Volume"] →
  unit_options !! category = Some units →
  from_unit ∉ units →
  convert_units value from_unit to_unit category = Raise (KeyError from_unit).
Proof.
  intros Hc Hu Hfrom.
  destruct (table_units category units Hc Hu) as (table & Ht & Hunits).
  unfold convert_units, getitem.
  rewrite (not_temperature _ Hc), Ht. simpl.
  by rewrite (proj2 (Hunits from_unit) Hfrom).
Qed.

Lemma convert_units_unknown_to_unit (category : string) (units : list string)
    (from_unit to_unit : string) (value : num) :
  category ∈ ["Length"; "Weight"; "Volume"] →
  unit_options !! category = Some units →
  from_unit ∈ units → to_unit ∉ units →
  convert_units value from_unit to_unit category = Raise (KeyError to_unit).
Proof.
  intros Hc Hu Hfrom Hto.
  destruct (table_units category units Hc Hu) as (table & Ht & Hunits).
  destruct (proj1 (Hunits from_unit) Hfrom) as [f_from Hf].
  unfold convert_units, getitem.
  rewrite (not_temperature _ Hc), Ht. simpl. rewrite Hf. simpl.
  by rewrite (proj2 (Hunits to_unit) Hto).
Qed.

(** Lines 57-69 on two temperature scales: to Celsius, then from Celsius. *)
Lemma convert_units_temperature (from_unit to_unit : string) (value : num) :
  from_unit ∈ ["Celsius"; "Fahrenheit"; "Kelvin"] →
  to_unit ∈ ["Celsius"; "Fahrenheit"; "Kelvin"] →
  ∃ celsius r,
    to_celsius from_unit value = Some celsius ∧
    from_celsius to_unit celsius = Some r ∧
    convert_units value from_unit to_unit "Temperature" = Ok r.
Proof.
  intros Hfrom Hto. pick_member Hfrom; pick_member Hto.
  all: eexists; eexists; repeat split; reflexivity.
Qed.

(** Lines 57-69 never raise, whatever the unit names. *)
Lemma convert_units_temperature_total (from_unit to_unit : string) (value : num) :
  ∃ r, convert_units value from_unit to_unit "Temperature" = Ok r.
Proof.
  unfold convert_units. simpl.
  destruct (String.eqb to_unit "Fahrenheit"); [eauto |].
  destruct (String.eqb to_unit "Kelvin"); eauto.
Qed.

(** A name that is no temperature scale is read as Celsius. *)
Lemma convert_units_temperature_fallback (from_unit to_unit : string) (value : num) :
  from_unit ∉ ["Celsius"; "Fahrenheit"; "Kelvin"] →
  to_unit ∉ ["Celsius"; "Fahrenheit"; "Kelvin"] →
  convert_units value from_unit to_unit "Temperature" = Ok value.
Proof.
  intros Hfrom Hto. unfold convert_units. simpl.
  destruct (String.eqb_spec from_unit "Fahrenheit") as [-> | _]; [set_solver |].
  destruct (String.eqb_spec from_unit "Kelvin") as [-> | _]; [set_solver |].
  destruct (String.eqb_spec to_unit "Fahrenheit") as [-> | _]; [set_solver |].
  destruct (String.eqb_spec to_unit "Kelvin") as [-> | _]; [set_solver |].
  done.
Qed.

End EngineLaws.

(** C1. On Length, Weight and Volume, for two units of the category's table,
    [convert_units] returns [value * factor(from_unit) / factor(to_unit)],
    where the factor of the base unit (meters, kilograms, liters) is 1; and
    in double precision [convert_units(1, "miles", "kilometers", "Length")]
    is within 1e-3 of 1.60934. *)
Theorem convert_units_multiplicative :
  (∀ (num : Type) (N : Number num) (category : string) (units : list string)
     (from_unit to_unit : string) (value : num),
      category ∈ ["Length"; "Weight"; "Volume"] →
      unit_options !! category = Some units →
      from_unit ∈ units → to_unit ∈ units →
      ∃ f_from f_to,
        factor category from_unit = Some f_from ∧
        factor category to_unit = Some f_to ∧
        convert_units value from_unit to_unit category
          = Ok (value * f_from / f_to)%num) ∧
  (∀ (num : Type) (N : Number num),
      factor (num := num) "Length" "meters" = Some (lit 1.0) ∧
      factor (num := num) "Weight" "kilograms" = Some (lit 1.0) ∧
      factor (num := num) "Volume" "liters" = Some (lit 1.0)) ∧
  (∃ r : float,
      convert_units (lit 1) "miles" "kilometers" "Length" = Ok r ∧
      (Qabs (float_toQ r - 1.60934) < 0.001)%Q).
Proof.
  split; [| split].
  - intros num N. apply convert_units_factor.
  - intros num N. repeat split; reflexivity.
  - eexists. split; [vm_compute; reflexivity |]. vm_compute. reflexivity.
Qed.

Lemma convert_units_multiplicative_witness :
  ∃ f_from f_to : float,
    factor "Length" "miles" = Some f_from ∧
    factor "Length" "kilometers" = Some f_to ∧
    convert_units 1%float "miles" "kilometers" "Length"
      = Ok (1 * f_from / f_to)%float.
Proof.
  destruct convert_units_multiplicative as [Hgen _].
  apply (Hgen float float_Number "Length"
           ["meters"; "feet"; "inches"; "centimeters"; "kilometers"; "miles"]).
  - repeat constructor.
  - reflexivity.
  - repeat constructor.
  - repeat constructor.
Defined.

(** C2. On Temperature, for two of the scales Celsius, Fahrenheit and Kelvin,
    [convert_units] first maps the value to Celsius by the inverse formula
    of [from_unit] and then maps Celsius to [to_unit] by its forward formula;
    in double precision 0 Celsius is 32.0 Fahrenheit, 100 Celsius is 212.0
    Fahrenheit and 0 Celsius is 273.15 Kelvin. *)
Theorem convert_units_temperature_pivot :
  (∀ (num : Type) (N : Number num) (from_unit to_unit : string) (value : num),
      from_unit ∈ ["Celsius"; "Fahrenheit"; "Kelvin"] →
      to_unit ∈ ["Celsius"; "Fahrenheit"; "Kelvin"] →
      ∃ celsius r,
        to_celsius from_unit value = Some celsius ∧
        from_celsius to_unit celsius = Some r ∧
        convert_units value from_unit to_unit "Temperature" = Ok r) ∧
  (∀ (num : Type) (N : Number num) (x : num),
      to_celsius "Celsius" x = Some x ∧
      to_celsius "Fahrenheit" x = Some ((x - lit 32) * lit 5 / lit 9)%num ∧
      to_celsius "Kelvin" x = Some (x - lit 273.15)%num ∧
      from_celsius "Celsius" x = Some x ∧
      from_celsius "Fahrenheit" x = Some (x * lit 9 / lit 5 + lit 32)%num ∧
      from_celsius "Kelvin" x = Some (x + lit 273.15)%num) ∧
  convert_units 0%float "Celsius" "Fahrenheit" "Temperature" = Ok 32%float ∧
  convert_units 100%float "Celsius" "Fahrenheit" "Temperature" = Ok 212%float ∧
  convert_units 0%float "Celsius" "Kelvin" "Temperature" = Ok (nearest_float 273.15).
Proof.
  split; [| split; [| split; [| split]]].
  - intros num N. apply convert_units_temperature.
  - intros num N x. repeat split; reflexivity.
  - vm_compute. reflexivity.
  - vm_compute. reflexivity.
  - vm_compute. reflexivity.
Qed.

Lemma convert_units_temperature_pivot_witness :
  ∃ celsius r : float,
    to_celsius "Fahrenheit" 212%float = Some celsius ∧
    from_celsius "Kelvin" celsius = Some r ∧
    convert_units 212%float "Fahrenheit" "Kelvin" "Temperature" = Ok r.
Proof.
  destruct convert_units_temperature_pivot as [Hgen _].
  apply (Hgen float float_Number "Fahrenheit" "Kelvin" 212%float);
    repeat constructor.
Defined.

(** C3, at the input where it fails.  With category Temperature a unit name
    that is no temperature scale raises nothing: it is read as Celsius, so
    [convert_units(5, "unknown_unit", "Celsius", "Temperature")] returns 5,
    and [convert_units(100, "fahrenheit", "celsius", "Temperature")] returns
    100.  (The other three categories and an unknown category do raise
    [KeyError]: [convert_units_unknown_category],
    [convert_units_unknown_from_unit], [convert_units_unknown_to_unit].) *)
Theorem convert_units_temperature_no_lookup_failure :
  (∀ (value : float) (from_unit to_unit : string),
      ∃ r, convert_units value from_unit to_unit "Temperature" = Ok r) ∧
  convert_units 5%float "unknown_unit" "Celsius" "Temperature" = Ok 5%float ∧
  convert_units 100%float "fahrenheit" "celsius" "Temperature" = Ok 100%float ∧
  convert_units 5%float "unknown_unit" "meters" "Length"
    = Raise (KeyError "unknown_unit").
Proof.
  split; [| split; [| split]].
  - intros. apply convert_units_temperature_total.
  - vm_compute. reflexivity.
  - vm_compute. reflexivity.
  - vm_compute. reflexivity.
Qed.

(** ** The interpreter *)

Section InterpreterFacts.

(** [float] raises no [JSONDecodeError]. *)
Lemma of_json_raises (v : json) (e : exn) :
  Float.of_json v = Raise e →
  e = OverflowError ∨ (∃ msg, e = ValueError msg) ∨ (∃ msg, e = TypeError msg).
Proof.
  destruct v as [| b | n | f | s | l | d]; simpl; try discriminate.
  - intros [= <-]. eauto.
  - unfold Dec.float_of_int.
    destruct (binary_normalize prec emax n 0 false); try discriminate.
    intros [= <-]. eauto.
  - unfold Float.of_str.
    destruct (Float.sign (Str.strip s)) as [neg body].
    destruct (_ || _); [discriminate |].
    destruct (String.eqb _ "nan"); [discriminate |].
    destruct (Float.floatnumber body) as [[digits exp10] |]; [discriminate |].
    intros [= <-]. eauto.
  - intros [= <-]. eauto.
  - intros [= <-]. eauto.
Qed.

Lemma split_from_nonempty (sep s : string) (n : nat) (cur : string) :
  ∃ a rest, Str.split_from sep s n cur = a :: rest.
Proof.
  revert n cur.
  induction s as [| c s IH]; intros n cur; simpl; [eauto |].
  destruct n; [| apply IH].
  destruct (Str.strip_prefix sep (String c s)); [eauto | apply IH].
Qed.

(** A separator that occurs is found by [split]: at least two pieces. *)
Lemma split_from_contains (sep s cur : string) :
  sep ≠ "" → Str.contains sep s = true →
  ∃ a b rest, Str.split_from sep s 0 cur = a :: b :: rest.
Proof.
  intros Hsep. revert cur. induction s as [| c s IH]; intros cur; simpl.
  - destruct sep; [done | discriminate].
  - destruct (Str.strip_prefix sep (String c s)) as [t |] eqn:Hp.
    + intros _.
      destruct (split_from_nonempty sep s (Nat.pred (String.length sep)) "")
        as (b & rest & ->).
      eauto.
    + intros Hc. apply IH, Hc.
Qed.

(** Lines 104-107 raise no [IndexError]. *)
Lemma strip_fences_total (raw_response : string) :
  ∃ payload, strip_fences raw_response = Ok payload.
Proof.
  unfold strip_fences.
  destruct (Str.contains "```json" raw_response) eqn:Hj.
  - destruct (split_from_contains "```json" raw_response "" ltac:(done) Hj)
      as (a & b & rest & Hs).
    unfold Str.split. rewrite Hs. simpl.
    destruct (split_from_nonempty "```" b 0 "") as (x & r & ->). simpl. eauto.
  - destruct (Str.contains "```" raw_response) eqn:Hf; [| eauto].
    destruct (split_from_contains "```" raw_response "" ltac:(done) Hf)
      as (a & b & rest & Hs).
    unfold Str.split. rewrite Hs. simpl. eauto.
Qed.

(** What the inner [try] body returns (lines 112-122). *)
Lemma validate_ok (raw_response : string) (o : outcome) :
  validate raw_response = Ok o →
  o = error_none MissingRequiredKeys ∨
  (∃ category, o = error_none (InvalidCategory category valid_categories)) ∨
  (∃ value from_unit to_unit category,
      o = return_tuple (value, from_unit, to_unit, JStr category) ∧
      category ∈ valid_categories).
Proof.
  unfold validate.
  destruct (Json.loads raw_response) as [result | e]; simpl; [| discriminate].
  destruct (keys result) as [ks | e]; simpl; [| discriminate].
  destruct (bool_decide (required_keys ⊆ ks)); simpl; [| intros [= <-]; eauto].
  destruct (subscript result "category") as [category | e]; simpl; [| discriminate].
  destruct (member category valid_categories) as [[] | e] eqn:Hm; simpl;
    [| intros [= <-]; eauto | discriminate].
  destruct (subscript result "value") as [value | e]; simpl; [| discriminate].
  destruct (Float.of_json value) as [x | e]; simpl; [| discriminate].
  destruct (subscript result "from_unit") as [from_unit | e]; simpl; [| discriminate].
  destruct (subscript result "to_unit") as [to_unit | e]; simpl; [| discriminate].
  intros [= <-]. right. right.
  destruct category as [| | | | c | |]; try discriminate.
  injection Hm as Hm. apply bool_decide_eq_true in Hm. eauto 10.
Qed.

(** The inner [try] body on a decoded object. *)
Lemma validate_dict (raw_response : string) (d : gmap string json) :
  Json.loads raw_response = Ok (JDict d) →
  validate raw_response =
    if negb (bool_decide (required_keys ⊆ dom d)) then
      Ok (error_none MissingRequiredKeys)
    else
      category ← getitem d "category";
      valid ← member category valid_categories;
      if negb valid then
        Ok (error_none (InvalidCategory category valid_categories))
      else
        value ← getitem d "value";
        value ← Float.of_json value;
        from_unit ← getitem d "from_unit";
        to_unit ← getitem d "to_unit";
        category ← getitem d "category";
        Ok (return_tuple (value, from_unit, to_unit, category)).
Proof. intros Hl. unfold validate. rewrite Hl. reflexivity. Qed.

(** How [parse_with_gemini] ends once the service answered. *)
Lemma parse_with_gemini_answered (generate_content : string → result string)
    (input_text text raw_response : string) :
  generate_content (prompt input_text) = Ok text →
  strip_fences (Str.strip text) = Ok raw_response →
  parse_with_gemini generate_content input_text =
    match validate raw_response with
    | Ok o => o
    | Raise (JSONDecodeError msg) => error_none (FailedToParseJSON (JSONDecodeError msg))
    | Raise e => error_none (GeminiAPIError e)
    end.
Proof.
  intros Hg Hs. unfold parse_with_gemini. rewrite Hg. simpl. rewrite Hs. simpl.
  destruct (validate raw_response) as [o | []]; reflexivity.
Qed.

Lemma required_key_missing (d : gmap string json) (k : string) :
  k ∈ required_keys → d !! k = None →
  bool_decide (required_keys ⊆ dom d) = false.
Proof.
  intros Hk Hd. apply bool_decide_eq_false. intros Hsub.
  apply Hsub, elem_of_dom in Hk. rewrite Hd in Hk. by destruct Hk.
Qed.

End InterpreterFacts.



(** C7. The code-fenced response with value 5, feet, meters and Length goes
    through fence stripping, JSON decoding and validation, and the tuple
    (5.0, "feet", "meters", "Length") is returned, nothing being shown. *)
Theorem fenced_response_interpreted (generate_content : string → result string)
    (input_text : string) :
  generate_content (prompt input_text) = Ok fenced_response →
  parse_with_gemini generate_content input_text
    = return_tuple (5%float, JStr "feet", JStr "meters", JStr "Length").
Proof.
  intros Hg. unfold parse_with_gemini. rewrite Hg. vm_compute. reflexivity.
Qed.

Lemma fenced_response_interpreted_witness :
  parse_with_gemini (answers fenced_response) "convert 5 feet to meters"
    = return_tuple (5%float, JStr "feet", JStr "meters", JStr "Length").
Proof.
  apply (fenced_response_interpreted (answers fenced_response)). reflexivity.
Defined.

(** C8. When the response decodes to a JSON object that lacks one of the
    four required keys, the "missing required keys" message is shown and
    [None] is returned: no exception, and not the message of a JSON that
    failed to parse. *)
Theorem missing_key_schema_violation
    (generate_content : string → result string)
    (input_text text raw_response : string) (d : gmap string json) (k : string) :
  generate_content (prompt input_text) = Ok text →
  strip_fences (Str.strip text) = Ok raw_response →
  Json.loads raw_response = Ok (JDict d) →
  k ∈ required_keys → d !! k = None →
  parse_with_gemini generate_content input_text = error_none MissingRequiredKeys ∧
  ∀ e, shown (parse_with_gemini generate_content input_text) ≠ [FailedToParseJSON e].
Proof.
  intros Hg Hs Hl Hk Hd.
  assert (parse_with_gemini generate_content input_text
          = error_none MissingRequiredKeys) as ->.
  { rewrite (parse_with_gemini_answered _ _ _ _ Hg Hs), (validate_dict _ _ Hl).
    by rewrite (required_key_missing _ _ Hk Hd). }
  split; [reflexivity | intros e; discriminate].
Qed.

Lemma missing_key_schema_violation_witness :
  parse_with_gemini (answers response_without_category) "convert 5 feet to meters"
    = error_none MissingRequiredKeys ∧
  ∀ e, shown (parse_with_gemini (answers response_without_category)
                "convert 5 feet to meters") ≠ [FailedToParseJSON e].
Proof.
  apply (missing_key_schema_violation (answers response_without_category)
           "convert 5 feet to meters" response_without_category
           response_without_category
           (<["value" := JInt 5]> (<["from_unit" := JStr "feet"]>
              {["to_unit" := JStr "meters"]}))
           "category").
  - reflexivity.
  - vm_compute. reflexivity.
  - vm_compute. reflexivity.
  - apply (bool_decide_unpack _). vm_compute. exact I.
  - vm_compute. reflexivity.
Defined.



(** C10. [parse_with_gemini] raises nothing: whatever the service does, it
    returns [None], or a tuple whose first component is a float and whose
    fourth is one of "Length", "Weight", "Temperature", "Volume"; and when it
    returns [None] it has shown exactly one message. *)
Theorem parse_with_gemini_total (generate_content : string → result string)
    (input_text : string) :
  let o := parse_with_gemini generate_content input_text in
  (returned o = None ∧ ∃ m, shown o = [m]) ∨
  (∃ (value : float) (from_unit to_unit : json) (category : string),
      returned o = Some (value, from_unit, to_unit, JStr category) ∧
      category ∈ valid_categories).
Proof.
  unfold parse_with_gemini.
  destruct (generate_content (prompt input_text)) as [text | e]; simpl;
    [| left; eauto].
  destruct (strip_fences (Str.strip text)) as [raw | e]; simpl; [| left; eauto].
  destruct (validate raw) as [o | e] eqn:Hv.
  - destruct (validate_ok _ _ Hv)
      as [-> | [[c ->] | (value & from_unit & to_unit & c & -> & Hc)]]; simpl.
    + left. eauto.
    + left. eauto.
    + right. eauto 10.
  - destruct e; simpl; left; eauto.
Qed.

(** ** Rounding in binary64 *)

Section Rounding.
Local Open Scope Z_scope.

Lemma digits2_size (p : positive) : digits2_pos p = Pos.size p.
Proof. induction p; simpl; congruence. Qed.

Lemma digits2_bounds (p : positive) :
  2 ^ (Zpos (digits2_pos p) - 1) <= Zpos p < 2 ^ Zpos (digits2_pos p).
Proof.
  rewrite digits2_size. split.
  - pose proof (Pos.size_le p) as Hle.
    assert (Zpos (2 ^ Pos.size p) <= Zpos (p~0)) as H by lia.
    rewrite Pos2Z.inj_pow in H.
    replace (Zpos (Pos.size p)) with (Zpos (Pos.size p) - 1 + 1) in H by lia.
    rewrite Z.pow_add_r in H by lia. lia.
  - pose proof (Pos.size_gt p) as Hgt.
    assert (Zpos p < Zpos (2 ^ Pos.size p)) as H by lia.
    by rewrite Pos2Z.inj_pow in H.
Qed.

Lemma shr_1_located (mrs : shr_record) (N D : Z) :
  located mrs N D → located (shr_1 mrs) N (2 * D).
Proof.
  destruct mrs as [m r s]. unfold located. simpl.
  intros (Hm & HD & Hloc).
  destruct m as [| [p | p |] | p]; try lia; destruct r, s; simpl; nia.
Qed.

Lemma pow2_xI (k : positive) : 2 ^ Zpos k~1 = 2 * (2 ^ Zpos k * 2 ^ Zpos k).
Proof.
  assert (Zpos k~1 = 1 + Zpos k + Zpos k) as -> by lia.
  rewrite !Z.pow_add_r by lia. lia.
Qed.

Lemma pow2_xO (k : positive) : 2 ^ Zpos k~0 = 2 ^ Zpos k * 2 ^ Zpos k.
Proof.
  assert (Zpos k~0 = Zpos k + Zpos k) as -> by lia.
  rewrite !Z.pow_add_r by lia. lia.
Qed.

Lemma iter_shr_located (k : positive) (mrs : shr_record) (N D : Z) :
  located mrs N D → located (SpecFloat.iter_pos shr_1 k mrs) N (D * 2 ^ Zpos k).
Proof.
  revert mrs D. induction k as [k IH | k IH |]; intros mrs D H; simpl.
  - apply shr_1_located, IH, IH in H.
    replace (D * 2 ^ Zpos k~1) with (2 * D * 2 ^ Zpos k * 2 ^ Zpos k); [done |].
    rewrite pow2_xI. lia.
  - apply IH, IH in H.
    replace (D * 2 ^ Zpos k~0) with (D * 2 ^ Zpos k * 2 ^ Zpos k); [done |].
    rewrite pow2_xO. lia.
  - apply shr_1_located in H. rewrite Z.pow_1_r. by rewrite Z.mul_comm.
Qed.

Abbreviation fexp64 := (SpecFloat.fexp prec emax).

Lemma fexp64_eq (e : Z) : fexp64 e = Z.max (e - 53) (-1074).
Proof. reflexivity. Qed.

Lemma located_range (mrs : shr_record) (N D : Z) :
  located mrs N D → shr_m mrs * D <= N < (shr_m mrs + 1) * D.
Proof.
  destruct mrs as [m r s]. unfold located. simpl.
  intros (Hm & HD & Hloc). destruct r, s; nia.
Qed.

Lemma located_of_loc (m N D : Z) (l : location) :
  located (shr_record_of_loc m l) N D ↔
  0 <= m ∧ 0 < D ∧
  match l with
  | loc_Exact => N = m * D
  | loc_Inexact Lt => m * D < N ∧ 2 * (N - m * D) < D
  | loc_Inexact Eq => 2 * (N - m * D) = D
  | loc_Inexact Gt => D < 2 * (N - m * D) ∧ N < (m + 1) * D
  end.
Proof. destruct l as [| []]; reflexivity. Qed.

Lemma Zdigits2_nonneg (m : Z) : 0 <= Zdigits2 m.
Proof. destruct m; simpl; lia. Qed.

Lemma Zdigits2_bounds (m : Z) :
  0 < m → 2 ^ (Zdigits2 m - 1) <= m < 2 ^ Zdigits2 m.
Proof. destruct m as [| p | p]; try lia. intros _. apply digits2_bounds. Qed.

Lemma Zdigits2_unique (m d : Z) :
  0 < m → 2 ^ (d - 1) <= m < 2 ^ d → Zdigits2 m = d.
Proof.
  intros Hm [Hlo Hhi]. pose proof (Zdigits2_bounds m Hm) as [Hlo' Hhi'].
  pose proof (Zdigits2_nonneg m).
  assert (0 < d).
  { destruct (Z.lt_ge_cases 0 d); [done |].
    assert (2 ^ d <= 2 ^ 0) by (apply Z.pow_le_mono_r; lia). simpl in *. lia. }
  destruct (Z.lt_trichotomy (Zdigits2 m) d) as [Hlt | [Heq | Hgt]]; [| done |].
  - assert (2 ^ Zdigits2 m <= 2 ^ (d - 1)) by (apply Z.pow_le_mono_r; lia). lia.
  - assert (2 ^ d <= 2 ^ (Zdigits2 m - 1)) by (apply Z.pow_le_mono_r; lia). lia.
Qed.

(** The digits of a quotient by a power of two. *)
Lemma Zdigits2_shift (m m1 k : Z) :
  0 <= m1 → 0 <= k → m1 * 2 ^ k <= m < (m1 + 1) * 2 ^ k →
  Zdigits2 m1 = Z.max 0 (Zdigits2 m - k).
Proof.
  intros Hm1 Hk [Hlo Hhi].
  assert (0 < 2 ^ k) by (apply Z.pow_pos_nonneg; lia).
  destruct (Z.eq_dec m1 0) as [-> | Hnz].
  - simpl. destruct (Z.eq_dec m 0) as [-> | Hm]; [simpl; lia |].
    pose proof (Zdigits2_bounds m ltac:(lia)) as [Hlo' _].
    destruct (Z.le_gt_cases (Zdigits2 m) k); [lia |].
    assert (2 ^ k <= 2 ^ (Zdigits2 m - 1)) by (apply Z.pow_le_mono_r; lia). lia.
  - assert (0 < m) by nia.
    pose proof (Zdigits2_bounds m ltac:(lia)) as [Hlo' Hhi'].
    pose proof (Zdigits2_bounds m1 ltac:(lia)) as [Hlo1 Hhi1].
    pose proof (Zdigits2_nonneg m1).
    assert (0 < Zdigits2 m1).
    { destruct (Z.eq_dec (Zdigits2 m1) 0) as [E | ?]; [| lia].
      rewrite E in Hhi1. simpl in Hhi1. lia. }
    assert (Zdigits2 m = Zdigits2 m1 + k); [| lia].
    apply Zdigits2_unique; [done |].
    replace (Zdigits2 m1 + k - 1) with (Zdigits2 m1 - 1 + k) by lia.
    rewrite !Z.pow_add_r by lia. nia.
Qed.

(** One more may add a digit only by reaching a power of two. *)
Lemma Zdigits2_succ (m : Z) :
  0 <= m →
  Zdigits2 (m + 1) = Zdigits2 m ∨
  (Zdigits2 (m + 1) = Zdigits2 m + 1 ∧ m + 1 = 2 ^ Zdigits2 m).
Proof.
  intros Hm. destruct (Z.eq_dec m 0) as [-> | Hnz]; [right; done |].
  pose proof (Zdigits2_bounds m ltac:(lia)) as [Hlo Hhi].
  pose proof (Zdigits2_nonneg m).
  destruct (Z.eq_dec (m + 1) (2 ^ Zdigits2 m)) as [E | NE].
  - right. split; [| done]. apply Zdigits2_unique; [lia |].
    replace (Zdigits2 m + 1 - 1) with (Zdigits2 m) by lia.
    rewrite Z.pow_add_r by lia. lia.
  - left. apply Zdigits2_unique; lia.
Qed.

(** The first shift of [binary_round_aux]. *)
Lemma shr_fexp_located (mx ex : Z) (lx : location) (N D : Z) :
  located (shr_record_of_loc mx lx) N D →
  let k := Z.max 0 (fexp64 (Zdigits2 mx + ex) - ex) in
  ∃ mrs, shr_fexp prec emax mx ex lx = (mrs, ex + k) ∧ located mrs N (D * 2 ^ k).
Proof.
  intros H. unfold shr_fexp, shr.
  destruct (fexp64 (Zdigits2 mx + ex) - ex) as [| p | p] eqn:E; simpl.
  - eexists. split; [f_equal; lia |]. by rewrite Z.mul_1_r.
  - eexists. split; [reflexivity |]. by apply iter_shr_located.
  - eexists. split; [f_equal; lia |]. by rewrite Z.mul_1_r.
Qed.

(** Rounding to nearest: within half a unit. *)
Lemma round_nearest_even_located (mrs : shr_record) (N D : Z) :
  located mrs N D →
  let n := round_nearest_even (shr_m mrs) (loc_of_shr_record mrs) in
  (n = shr_m mrs ∨ n = shr_m mrs + 1) ∧ 2 * Z.abs (n * D - N) <= D.
Proof.
  destruct mrs as [m r s]. unfold located. simpl.
  intros (Hm & HD & Hloc). destruct r, s; simpl.
  - split; [right; done | nia].
  - destruct (Z.even m); split; auto; nia.
  - split; [left; done | nia].
  - split; [left; done | nia].
Qed.

(** [binary_round_aux] on a value [N / D * 2 ^ ex] located by [(mx, lx)]:
    the result is [n * 2 ^ e1] for an integer [n] within half a unit of the
    value counted in units of [2 ^ e1], renormalised by at most one digit. *)
Lemma binary_round_aux_spec (s : bool) (mx ex : Z) (lx : location) (N D : Z) :
  located (shr_record_of_loc mx lx) N D →
  let e1 := Z.max ex (fexp64 (Zdigits2 mx + ex)) in
  ∃ n, 0 <= n ∧
    2 * Z.abs (n * (D * 2 ^ (e1 - ex)) - N) <= D * 2 ^ (e1 - ex) ∧
    ((n = 0 ∧ binary_round_aux prec emax s mx ex lx = S754_zero s) ∨
     (∃ (m' : positive) (e' : Z),
        Zpos m' * 2 ^ (e' - e1) = n ∧ e1 <= e' <= e1 + 1 ∧
        e' = Z.max e1 (fexp64 (Zdigits2 n + e1)) ∧
        binary_round_aux prec emax s mx ex lx =
          if e' <=? emax - prec then S754_finite s m' e' else S754_infinity s)).
Proof.
  intros Hloc e1.
  pose proof (located_range _ _ _ Hloc) as Hr0.
  assert (0 <= mx ∧ 0 < D) as [Hmx HD].
  { apply located_of_loc in Hloc. tauto. }
  replace (shr_m (shr_record_of_loc mx lx)) with mx in Hr0 by (by destruct lx as [| []]).
  destruct (shr_fexp_located mx ex lx N D Hloc) as (mrs & E1 & Hloc1).
  set (k := Z.max 0 (fexp64 (Zdigits2 mx + ex) - ex)) in *.
  assert (e1 = ex + k) as He1 by (unfold e1, k; lia).
  assert (0 <= k) as Hk by (unfold k; lia).
  assert (0 < 2 ^ k) as Hpk by (apply Z.pow_pos_nonneg; lia).
  pose proof (located_range _ _ _ Hloc1) as Hr1.
  destruct (round_nearest_even_located _ _ _ Hloc1) as [Hn Herr].
  set (m1 := shr_m mrs) in *.
  set (n := round_nearest_even m1 (loc_of_shr_record mrs)) in *.
  assert (0 <= m1) as Hm1 by (destruct mrs; unfold located in Hloc1; simpl in *; tauto).
  assert (m1 * 2 ^ k <= mx < (m1 + 1) * 2 ^ k) as Hq by nia.
  pose proof (Zdigits2_shift mx m1 k Hm1 Hk Hq) as Hd1.
  pose proof (Zdigits2_succ m1 Hm1) as Hsucc.
  pose proof (Zdigits2_nonneg mx) as Hdx.
  exists n. replace (e1 - ex) with k by lia.
  split; [lia |]. split; [done |].
  unfold binary_round_aux. rewrite E1. fold m1. fold n.
  rewrite <- He1. unfold shr_fexp, shr.
  assert (fexp64 (Zdigits2 n + e1) - e1 <= 0 ∨
          (fexp64 (Zdigits2 n + e1) - e1 = 1 ∧ ∃ p, n = Zpos p~0)) as Hk2.
  { rewrite fexp64_eq. unfold e1, k in *. rewrite fexp64_eq in *.
    destruct Hn as [-> | ->].
    - left. lia.
    - destruct Hsucc as [-> | [-> Hpow]]; [left; lia |].
      destruct (Z.eq_dec (Zdigits2 m1) 0) as [E0 | Hnz0]; [left; lia |].
      destruct (Z_le_gt_dec (Z.max (Zdigits2 m1 + 1 + Z.max ex (Z.max (Zdigits2 mx + ex - 53) (-1074)) - 53) (-1074)
                  - Z.max ex (Z.max (Zdigits2 mx + ex - 53) (-1074))) 0) as [Hle | Hgt];
        [left; done | right].
      split; [lia |].
      assert (m1 + 1 = 2 * 2 ^ (Zdigits2 m1 - 1)) as Heven.
      { rewrite Hpow. replace (Zdigits2 m1) with (1 + (Zdigits2 m1 - 1)) at 1 by lia.
        rewrite Z.pow_add_r by lia. reflexivity. }
      assert (0 < 2 ^ (Zdigits2 m1 - 1)) by (apply Z.pow_pos_nonneg; lia).
      destruct (m1 + 1) as [| [p | p |] | p]; try lia. eauto. }
  destruct Hk2 as [Hk2 | [Hk2 [p Hp]]].
  - assert (Z.max e1 (fexp64 (Zdigits2 n + e1)) = e1) as Hmax by lia.
    assert ((let '(mrs'', e'') :=
               match fexp64 (Zdigits2 n + e1) - e1 with
               | Zpos p => (SpecFloat.iter_pos shr_1 p (shr_record_of_loc n loc_Exact),
                            e1 + (fexp64 (Zdigits2 n + e1) - e1))
               | _ => (shr_record_of_loc n loc_Exact, e1)
               end in
             match shr_m mrs'' with
             | Z0 => S754_zero s
             | Zpos m => if e'' <=? emax - prec then S754_finite s m e''
                         else S754_infinity s
             | Zneg _ => S754_nan
             end) =
            match n with
            | Z0 => S754_zero s
            | Zpos m => if e1 <=? emax - prec then S754_finite s m e1
                        else S754_infinity s
            | Zneg _ => S754_nan
            end) as ->.
    { destruct (fexp64 (Zdigits2 n + e1) - e1) as [| q | q] eqn:E2.
      - reflexivity.
      - lia.
      - reflexivity. }
    rewrite Hmax. assert (0 <= n) as Hn0 by lia.
    clear Hk2 Hmax Herr Hn. clearbody n.
    destruct n as [| q' | q']; [left; done | right | lia].
    exists q', e1. replace (e1 - e1) with 0 by lia.
    split; [lia | split; [lia | split; reflexivity]].
  - rewrite Hk2. right. exists p, (e1 + 1).
    replace (e1 + 1 - e1) with 1 by lia.
    split; [lia | split; [lia | split; [lia |]]].
    rewrite Hp. reflexivity.
Qed.

Local Open Scope Q_scope.

Lemma pow2_pos (e : Z) : 0 < 2 ^ e.
Proof. by apply Qpower_0_lt. Qed.

Lemma pow2_add (a b : Z) : 2 ^ (a + b) == 2 ^ a * 2 ^ b.
Proof. by apply Qpower_plus. Qed.

Lemma pow2_inject (k : Z) : (0 <= k)%Z → inject_Z (2 ^ k) == 2 ^ k.
Proof. intros Hk. by rewrite Zpower_Qpower. Qed.

Lemma pow2_le (a b : Z) : (a <= b)%Z → 2 ^ a <= 2 ^ b.
Proof. intros H. by apply Qpower_le_compat_l. Qed.

Lemma pow2_lt (a b : Z) : (a < b)%Z → 2 ^ a < 2 ^ b.
Proof. intros H. by apply Qpower_lt_compat_l. Qed.

Lemma pow2_half (e : Z) : (1 # 2) * 2 ^ e == 2 ^ (e - 1).
Proof.
  replace (e - 1)%Z with (e + -1)%Z by lia. rewrite pow2_add.
  change (2 ^ (-1)) with (/ 2). field.
Qed.

Lemma SF2Q_finite (s : bool) (m : positive) (e : Z) :
  SF2Q (S754_finite s m e) == sgn s * inject_Z (Zpos m) * 2 ^ e.
Proof.
  assert (inject_Z (if s then Zneg m else Zpos m) == sgn s * inject_Z (Zpos m)) as Hs.
  { destruct s; unfold sgn; [| ring].
    change (Zneg m) with (- Zpos m)%Z. rewrite inject_Z_opp. ring. }
  unfold SF2Q. destruct e as [| k | k].
  - rewrite Hs. change (2 ^ 0) with 1. ring.
  - rewrite inject_Z_mult, Hs, Z.pow_pos_fold, pow2_inject by lia. ring.
  - rewrite Qmake_Qdiv, Hs, Pos2Z.inj_pow, pow2_inject by lia.
    change (Zneg k) with (- Zpos k)%Z. rewrite Qpower_opp.
    field. apply Qpower_not_0. discriminate.
Qed.

Ltac push_inject H :=
  unfold Z.sub in H;
  repeat first [ rewrite inject_Z_opp in H
               | rewrite inject_Z_mult in H
               | rewrite inject_Z_plus in H ].

(** The result of [binary_round_aux], read in [Q]: finite when the exponent
    fits, and within half a unit of the last place of the value. *)
Lemma binary_round_aux_Q (s : bool) (mx ex : Z) (lx : location) (N D : Z) (x : Q) :
  located (shr_record_of_loc mx lx) N D →
  x * inject_Z D == inject_Z N →
  let e1 := Z.max ex (fexp64 (Zdigits2 mx + ex)) in
  (e1 + 1 <= emax - prec)%Z →
  let r := binary_round_aux prec emax s mx ex lx in
  SF_finite r = true ∧
  Qabs (SF2Q r - sgn s * (x * 2 ^ ex)) <= (1 # 2) * 2 ^ e1.
Proof.
  intros Hloc Hx e1 He1 r.
  destruct (binary_round_aux_spec s mx ex lx N D Hloc) as (n & Hn & Herr & Hr).
  fold e1 in Herr, Hr.
  assert (0 < D)%Z as HD by (apply located_of_loc in Hloc; tauto).
  assert (0 <= e1 - ex)%Z as Hk by (unfold e1; lia).
  assert (SF_finite r = true ∧ SF2Q r == sgn s * (inject_Z n * 2 ^ e1)) as [Hfin Hval].
  { unfold r. destruct Hr as [[-> ->] | (m' & e' & Hm & He' & _ & ->)].
    - split; [done |]. simpl. ring.
    - destruct (Z.leb_spec e' (emax - prec)); [| lia].
      split; [done |]. rewrite SF2Q_finite, <- Hm, inject_Z_mult.
      rewrite pow2_inject by lia.
      assert (2 ^ e' == 2 ^ (e' - e1) * 2 ^ e1) as ->; [| ring].
      rewrite <- pow2_add. by replace (e' - e1 + e1)%Z with e' by lia. }
  split; [done |]. rewrite Hval.
  setoid_replace (sgn s * (inject_Z n * 2 ^ e1) - sgn s * (x * 2 ^ ex))
    with (sgn s * (inject_Z n * 2 ^ e1 - x * 2 ^ ex)) using relation Qeq by ring.
  rewrite Qabs_Qmult.
  assert (Qabs (sgn s) == 1) as -> by (by destruct s).
  rewrite Qmult_1_l.
  assert (2 ^ e1 == 2 ^ ex * inject_Z (2 ^ (e1 - ex))) as ->.
  { rewrite pow2_inject, <- pow2_add by lia.
    by replace (ex + (e1 - ex))%Z with e1 by lia. }
  assert (- (D * 2 ^ (e1 - ex)) <= 2 * (n * (D * 2 ^ (e1 - ex)) - N))%Z as Hlo by lia.
  assert (2 * (n * (D * 2 ^ (e1 - ex)) - N) <= D * 2 ^ (e1 - ex))%Z as Hhi by lia.
  clear Herr. rewrite Zle_Qle in Hlo, Hhi.
  rewrite Zlt_Qlt in HD. change (inject_Z 0) with 0 in HD.
  assert (0 < inject_Z (2 ^ (e1 - ex))) as Hp.
  { change (inject_Z 0 < inject_Z (2 ^ (e1 - ex))).
    rewrite <- Zlt_Qlt. apply Z.pow_pos_nonneg; lia. }
  pose proof (pow2_pos ex) as HE.
  set (P := (2 ^ (e1 - ex))%Z) in *.
  push_inject Hlo. push_inject Hhi.
  change (inject_Z 2) with 2 in Hlo, Hhi.
  revert Hlo Hhi HD HE Hp Hx.
  generalize (inject_Z P) (inject_Z n) (inject_Z D) (2 ^ ex) (inject_Z N).
  intros p a d E b Hlo Hhi Hd HE Hp Hx.
  assert (- (d * p) <= 2 * (a * d * p - x * d)) as Hlo' by lra.
  assert (2 * (a * d * p - x * d) <= d * p) as Hhi' by lra.
  clear Hlo Hhi Hx b.
  apply Qabs_Qle_condition.
  assert (- p <= 2 * (a * p - x)) by nra.
  assert (2 * (a * p - x) <= p) by nra.
  split; nra.
Qed.

(** *** The operations *)

Lemma valid_finite (s : bool) (m : positive) (e : Z) :
  valid_binary (S754_finite s m e) = true →
  let d := Zpos (digits2_pos m) in
  (d <= 53 ∧ -1074 <= e <= 971 ∧ (d = 53 ∨ e = -1074))%Z.
Proof.
  simpl. unfold bounded, canonical_mantissa. rewrite fexp64_eq.
  intros H. apply andb_prop in H as [H1 H2].
  apply Z.eqb_eq in H1. apply Z.leb_le in H2.
  change (emax - prec)%Z with 971%Z in H2. lia.
Qed.

Lemma sgn_xorb (a b : bool) : sgn (xorb a b) == sgn a * sgn b.
Proof. by destruct a, b. Qed.

Lemma Qabs_sgn (s : bool) (x : Q) : Qabs (sgn s * x) == Qabs x.
Proof. rewrite Qabs_Qmult. assert (Qabs (sgn s) == 1) as -> by (by destruct s). ring. Qed.

(** Half a unit in the last place against the value: a relative part, and an
    absolute part at the bottom of the range. *)
Lemma half_ulp_bound (m e : Z) (v : Q) :
  (0 < m)%Z → inject_Z m * 2 ^ e <= v →
  (1 # 2) * 2 ^ fexp64 (Zdigits2 m + e) <= 2 ^ (-53) * v + 2 ^ (-1075).
Proof.
  intros Hm Hv. rewrite pow2_half, fexp64_eq.
  pose proof (Zdigits2_bounds m Hm) as [Hlo _].
  pose proof (pow2_pos (-1075)). pose proof (pow2_pos (-53)).
  destruct (Z.max_spec (Zdigits2 m + e - 53) (-1074)) as [[Hc ->] | [Hc ->]].
  - change (-1074 - 1)%Z with (-1075)%Z.
    assert (0 <= inject_Z m * 2 ^ e).
    { apply Qmult_le_0_compat; [| apply Qlt_le_weak, pow2_pos].
      change 0 with (inject_Z 0). rewrite <- Zle_Qle. lia. }
    nra.
  - assert (2 ^ (Zdigits2 m + e - 53 - 1) == 2 ^ (-53) * (2 ^ (Zdigits2 m - 1) * 2 ^ e)) as ->.
    { rewrite <- !pow2_add. by replace (-53 + (Zdigits2 m - 1 + e))%Z
        with (Zdigits2 m + e - 53 - 1)%Z by lia. }
    assert (2 ^ (Zdigits2 m - 1) <= inject_Z m) as Hq.
    { pose proof (Zdigits2_nonneg m).
      assert (Zdigits2 m ≠ 0%Z) by (destruct m; simpl; lia).
      rewrite <- pow2_inject by lia. by rewrite <- Zle_Qle. }
    pose proof (pow2_pos e). nra.
Qed.

(** The exponent of a value below [2 ^ 1023] leaves room for one carry. *)
Lemma fexp64_room (m e : Z) (v : Q) :
  (0 < m)%Z → inject_Z m * 2 ^ e <= v → v < 2 ^ 1023 →
  (fexp64 (Zdigits2 m + e) + 1 <= emax - prec)%Z.
Proof.
  intros Hm Hv Hlt. rewrite fexp64_eq. change (emax - prec)%Z with 971%Z.
  pose proof (Zdigits2_bounds m Hm) as [Hlo _].
  assert (2 ^ (Zdigits2 m - 1 + e) < 2 ^ 1023) as Hp.
  { rewrite pow2_add. eapply Qle_lt_trans; [| exact Hlt].
    eapply Qle_trans; [| exact Hv].
    apply Qmult_le_compat_r; [| apply Qlt_le_weak, pow2_pos].
    pose proof (Zdigits2_nonneg m).
    assert (Zdigits2 m ≠ 0%Z) by (destruct m; simpl; lia).
    rewrite <- pow2_inject by lia. by rewrite <- Zle_Qle. }
  apply Qpower_lt_compat_l_inv in Hp; [lia | done].
Qed.

Lemma bound_nonneg (v : Q) : 0 <= 2 ^ (-53) * Qabs v + 2 ^ (-1075).
Proof.
  pose proof (pow2_pos (-1075)). pose proof (pow2_pos (-53)).
  pose proof (Qabs_nonneg v). nra.
Qed.

Lemma exact_within (a b : Q) :
  a == b → Qabs (a - b) <= 2 ^ (-53) * Qabs b + 2 ^ (-1075).
Proof.
  intros ->. setoid_replace (b - b) with 0 using relation Qeq by ring.
  apply bound_nonneg.
Qed.

Lemma Zdigits2_mul (a b : positive) :
  (Zpos (digits2_pos a) + Zpos (digits2_pos b) - 1 <= Zpos (digits2_pos (a * b)))%Z.
Proof.
  pose proof (digits2_bounds a) as [Ha _]. pose proof (digits2_bounds b) as [Hb _].
  pose proof (digits2_bounds (a * b)) as [_ Hab].
  rewrite Pos2Z.inj_mul in Hab.
  assert (2 ^ (Zpos (digits2_pos a) - 1 + (Zpos (digits2_pos b) - 1))
          < 2 ^ Zpos (digits2_pos (a * b)))%Z as Hp.
  { rewrite Z.pow_add_r by lia. nia. }
  apply Z.pow_lt_mono_r_iff in Hp; lia.
Qed.

Lemma SFmul_error (x y : spec_float) :
  valid_binary x = true → valid_binary y = true →
  SF_finite x = true → SF_finite y = true →
  Qabs (SF2Q x * SF2Q y) < 2 ^ 1023 →
  SF_finite (SF64mul x y) = true ∧
  Qabs (SF2Q (SF64mul x y) - SF2Q x * SF2Q y)
    <= 2 ^ (-53) * Qabs (SF2Q x * SF2Q y) + 2 ^ (-1075).
Proof.
  intros Hvx Hvy Hfx Hfy Hlt.
  destruct x as [sx | sx | | sx mx ex], y as [sy | sy | | sy my ey];
    try discriminate; simpl SF64mul; unfold SF64mul, SFmul.
  1-3: split; [done |]; apply exact_within; simpl SF2Q; ring.
  set (m := (mx * my)%positive). set (e := (ex + ey)%Z).
  assert (SF2Q (S754_finite sx mx ex) * SF2Q (S754_finite sy my ey)
          == sgn (xorb sx sy) * (inject_Z (Zpos m) * 2 ^ e)) as Hprod.
  { rewrite !SF2Q_finite, sgn_xorb. unfold m, e.
    rewrite Pos2Z.inj_mul, inject_Z_mult, pow2_add. ring. }
  rewrite Hprod in Hlt |- *. rewrite Qabs_sgn in Hlt |- *.
  assert (0 <= inject_Z (Zpos m) * 2 ^ e) as Hnn.
  { apply Qmult_le_0_compat; [done | apply Qlt_le_weak, pow2_pos]. }
  rewrite (Qabs_pos _ Hnn) in Hlt |- *.
  pose proof (valid_finite _ _ _ Hvx) as Hx. pose proof (valid_finite _ _ _ Hvy) as Hy.
  pose proof (Zdigits2_mul mx my) as Hd. fold m in Hd. simpl in Hx, Hy.
  assert (Z.max e (fexp64 (Zdigits2 (Zpos m) + e)) = fexp64 (Zdigits2 (Zpos m) + e)) as He1.
  { rewrite fexp64_eq. simpl Zdigits2. unfold e. lia. }
  pose proof (fexp64_room (Zpos m) e _ ltac:(done) (Qle_refl _) Hlt) as Hroom.
  destruct (binary_round_aux_Q (xorb sx sy) (Zpos m) e loc_Exact (Zpos m) 1
              (inject_Z (Zpos m))) as [Hfin Herr].
  - apply located_of_loc. lia.
  - ring.
  - by rewrite He1.
  - split; [exact Hfin |]. rewrite He1 in Herr.
    eapply Qle_trans; [exact Herr |].
    apply half_ulp_bound; [done | apply Qle_refl].
Qed.

Lemma new_location_located (q r my m' : Z) :
  (0 <= q)%Z → (0 <= r < my)%Z → (m' = my * q + r)%Z →
  located (shr_record_of_loc q (new_location my r)) m' my.
Proof.
  intros Hq Hr Hm. apply located_of_loc. split; [done |]. split; [lia |].
  unfold new_location, new_location_even, new_location_odd.
  destruct (Z.even my) eqn:Hev.
  - destruct (Z.eqb_spec r 0); [nia |].
    destruct (Z.compare_spec (2 * r) my); nia.
  - destruct (Z.eqb_spec r 0); [nia |].
    assert (Z.odd my = true) as Hodd by (rewrite <- Z.negb_even, Hev; done).
    apply Z.odd_spec in Hodd as [c Hc].
    destruct (Z.compare_spec (2 * r + 1) my); nia.
Qed.

Lemma SFdiv_core_binary_eq (mx my : positive) (ex ey : Z) :
  let e' := Z.min (fexp64 (Zdigits2 (Zpos mx) + ex - (Zdigits2 (Zpos my) + ey))) (ex - ey) in
  let m' := (Zpos mx * 2 ^ (ex - ey - e'))%Z in
  SFdiv_core_binary prec emax (Zpos mx) ex (Zpos my) ey =
    (m' / Zpos my, e', new_location (Zpos my) (m' mod Zpos my))%Z.
Proof.
  intros e' m'. unfold SFdiv_core_binary. fold e'.
  assert (0 <= ex - ey - e')%Z as Hs by (unfold e'; lia).
  assert ((match (ex - ey - e')%Z with
           | Zpos _ => Z.shiftl (Zpos mx) (ex - ey - e')
           | Z0 => Zpos mx
           | Zneg _ => 0%Z
           end) = m') as ->.
  { unfold m'. destruct (ex - ey - e')%Z as [| p | p] eqn:E; [lia | | lia].
    by rewrite Z.shiftl_mul_pow2. }
  unfold Z.div, Z.modulo. by destruct (Z.div_eucl m' (Zpos my)).
Qed.

Lemma SFdiv_error (x : spec_float) (sy : bool) (my : positive) (ey : Z) :
  let y := S754_finite sy my ey in
  valid_binary x = true → valid_binary y = true → SF_finite x = true →
  Qabs (SF2Q x / SF2Q y) < 2 ^ 1023 →
  SF_finite (SF64div x y) = true ∧
  Qabs (SF2Q (SF64div x y) - SF2Q x / SF2Q y)
    <= 2 ^ (-53) * Qabs (SF2Q x / SF2Q y) + 2 ^ (-1075).
Proof.
  intros y Hvx Hvy Hfx Hlt.
  assert (0 < inject_Z (Zpos my)) as Hmy by done.
  assert (¬ SF2Q y == 0) as Hy0.
  { unfold y. rewrite SF2Q_finite. pose proof (pow2_pos ey).
    destruct sy; unfold sgn; nra. }
  subst y.
  destruct x as [sx | sx | | sx mx ex]; try discriminate;
    unfold SF64div, SFdiv.
  { split; [done |]. apply exact_within. simpl SF2Q at 1 2. by field. }
  rewrite SFdiv_core_binary_eq.
  set (d1 := Zdigits2 (Zpos mx)). set (d2 := Zdigits2 (Zpos my)).
  set (e' := Z.min (fexp64 (d1 + ex - (d2 + ey))) (ex - ey)).
  set (m' := (Zpos mx * 2 ^ (ex - ey - e'))%Z).
  assert (0 <= ex - ey - e')%Z as Hs by (unfold e'; lia).
  assert (0 < 2 ^ (ex - ey - e'))%Z as Hps by (apply Z.pow_pos_nonneg; lia).
  assert (0 < m')%Z as Hm' by (unfold m'; nia).
  pose proof (Z.div_mod m' (Zpos my) ltac:(lia)) as Hdm.
  pose proof (Z.mod_pos_bound m' (Zpos my) ltac:(lia)) as Hr.
  pose proof (Z.div_pos m' (Zpos my) ltac:(lia) ltac:(lia)) as Hq.
  set (q := (m' / Zpos my)%Z) in *. set (r := (m' mod Zpos my)%Z) in *.
  set (xq := inject_Z m' / inject_Z (Zpos my)).
  assert (xq * inject_Z (Zpos my) == inject_Z m') as Hxq.
  { unfold xq. field. lra. }
  assert (SF2Q (S754_finite sx mx ex) / SF2Q (S754_finite sy my ey)
          == sgn (xorb sx sy) * (xq * 2 ^ e')) as Hquot.
  { rewrite !SF2Q_finite, sgn_xorb. unfold xq, m'.
    rewrite inject_Z_mult, pow2_inject by lia.
    assert (2 ^ ex == 2 ^ (ex - ey - e') * 2 ^ e' * 2 ^ ey) as ->.
    { rewrite <- !pow2_add. by replace (ex - ey - e' + e' + ey)%Z with ex by lia. }
    pose proof (pow2_pos ey). pose proof (pow2_pos e').
    destruct sx, sy; unfold sgn; simpl xorb; field; split; lra. }
  rewrite Hquot in Hlt |- *. rewrite Qabs_sgn in Hlt |- *.
  assert (inject_Z q <= xq) as Hqx.
  { unfold xq. apply Qle_shift_div_l; [done |].
    rewrite <- inject_Z_mult, <- Zle_Qle. lia. }
  assert (0 <= xq * 2 ^ e') as Hnn.
  { apply Qmult_le_0_compat; [| apply Qlt_le_weak, pow2_pos].
    eapply Qle_trans; [| exact Hqx]. change 0 with (inject_Z 0).
    by rewrite <- Zle_Qle. }
  rewrite (Qabs_pos _ Hnn) in Hlt |- *.
  assert (inject_Z q * 2 ^ e' <= xq * 2 ^ e') as Hqv.
  { apply Qmult_le_compat_r; [done | apply Qlt_le_weak, pow2_pos]. }
  pose proof (valid_finite _ _ _ Hvx) as Hx. pose proof (valid_finite _ _ _ Hvy) as Hy.
  simpl in Hx, Hy.
  pose proof (Zdigits2_bounds (Zpos mx) ltac:(lia)) as [Hlo1 Hhi1].
  pose proof (Zdigits2_bounds (Zpos my) ltac:(lia)) as [Hlo2 Hhi2].
  fold d1 in Hlo1, Hhi1. fold d2 in Hlo2, Hhi2.
  assert (0 < d1 ∧ 0 < d2)%Z as [Hd1 Hd2] by (unfold d1, d2; simpl; lia).
  assert ((Z.max e' (fexp64 (Zdigits2 q + e')) + 1 <= emax - prec)%Z ∧
          (1 # 2) * 2 ^ Z.max e' (fexp64 (Zdigits2 q + e'))
            <= 2 ^ (-53) * (xq * 2 ^ e') + 2 ^ (-1075)) as [Hroom Hulp].
  { destruct (Z.eq_dec q 0%Z) as [Hq0 | Hq0].
    - (* the quotient is below one unit: the bottom of the range *)
      assert (m' < Zpos my)%Z as Hsmall by nia.
      assert (2 ^ (d1 - 1 + (ex - ey - e')) < 2 ^ d2)%Z as Hp.
      { rewrite Z.pow_add_r by lia. unfold m' in Hsmall. nia. }
      apply Z.pow_lt_mono_r_iff in Hp; [| lia | lia].
      assert (e' <= -1074)%Z as He' by (unfold e' in *; rewrite fexp64_eq in *; lia).
      rewrite Hq0. simpl Zdigits2. rewrite fexp64_eq.
      replace (Z.max e' (Z.max (0 + e' - 53) (-1074))) with (-1074)%Z by lia.
      split; [done |].
      assert ((1 # 2) * 2 ^ (-1074) == 2 ^ (-1075)) as -> by apply pow2_half.
      pose proof (pow2_pos (-53)). nra.
    - assert (0 < q)%Z as Hqpos by lia.
      pose proof (Zdigits2_bounds q Hqpos) as [Hloq Hhiq].
      pose proof (Zdigits2_nonneg q) as Hdq.
      assert (2 ^ (d1 - 1 + (ex - ey - e')) < 2 ^ (Zdigits2 q + d2))%Z as Hp.
      { rewrite !Z.pow_add_r by lia. unfold m' in *. nia. }
      apply Z.pow_lt_mono_r_iff in Hp; [| lia | lia].
      assert (Z.max e' (fexp64 (Zdigits2 q + e')) = fexp64 (Zdigits2 q + e')) as ->.
      { clear -Hp Hs Hd1 Hd2 Hdq. unfold e' in *. rewrite !fexp64_eq in *. lia. }
      split.
      + by apply (fexp64_room q e' (xq * 2 ^ e')).
      + by apply half_ulp_bound. }
  destruct (binary_round_aux_Q (xorb sx sy) q e' (new_location (Zpos my) r)
              m' (Zpos my) xq) as [Hfin Herr].
  - apply new_location_located; lia.
  - exact Hxq.
  - exact Hroom.
  - split; [exact Hfin |]. eapply Qle_trans; [exact Herr | exact Hulp].
Qed.

Lemma shl_align_value (m : positive) (e e' : Z) :
  let ez := Z.min e e' in
  shl_align m e e' = (Z.to_pos (Zpos m * 2 ^ (e - ez)), ez) ∧
  (0 < Zpos m * 2 ^ (e - ez))%Z.
Proof.
  intros ez. unfold shl_align.
  assert (0 < 2 ^ (e - ez))%Z by (apply Z.pow_pos_nonneg; unfold ez; lia).
  split; [| nia].
  destruct (e' - e)%Z as [| d | d] eqn:E.
  - replace ez with e by (unfold ez; lia). rewrite Z.sub_diag, Z.mul_1_r. done.
  - replace ez with e by (unfold ez; lia). rewrite Z.sub_diag, Z.mul_1_r. done.
  - replace ez with e' by (unfold ez; lia). replace (e - e')%Z with (Zpos d) by lia.
    f_equal. change (Pos.iter xO m d) with (shift_pos d m).
    apply Pos2Z.inj. rewrite shift_pos_correct, Z2Pos.id, Z.pow_pos_fold; lia.
Qed.

Lemma binary_normalize_error (S e : Z) :
  let v := inject_Z S * 2 ^ e in
  Qabs v < 2 ^ 1023 →
  let r := binary_normalize prec emax S e false in
  SF_finite r = true ∧ Qabs (SF2Q r - v) <= 2 ^ (-53) * Qabs v + 2 ^ (-1075).
Proof.
  intros v Hlt r.
  assert (∀ (s : bool) (m : positive),
    inject_Z (Zpos m) * 2 ^ e < 2 ^ 1023 →
    SF_finite (binary_round prec emax s m e) = true ∧
    Qabs (SF2Q (binary_round prec emax s m e) - sgn s * (inject_Z (Zpos m) * 2 ^ e))
      <= 2 ^ (-53) * (inject_Z (Zpos m) * 2 ^ e) + 2 ^ (-1075)) as Hround.
  { intros s m Hm. unfold binary_round.
    set (f := fexp64 (Zpos (digits2_pos m) + e)).
    destruct (shl_align_value m e f) as [-> Hpos].
    set (ez := Z.min e f) in *. set (mz := (Zpos m * 2 ^ (e - ez))%Z) in *.
    assert (0 <= e - ez)%Z by (unfold ez; lia).
    assert (inject_Z mz * 2 ^ ez == inject_Z (Zpos m) * 2 ^ e) as Hval.
    { unfold mz. rewrite inject_Z_mult, pow2_inject by lia.
      assert (2 ^ e == 2 ^ (e - ez) * 2 ^ ez) as ->; [| ring].
      rewrite <- pow2_add. by replace (e - ez + ez)%Z with e by lia. }
    assert (Zdigits2 mz = Zpos (digits2_pos m) + (e - ez))%Z as Hdz.
    { apply Zdigits2_unique; [done |]. unfold mz.
      pose proof (digits2_bounds m) as [Hlo Hhi].
      replace (Zpos (digits2_pos m) + (e - ez) - 1)%Z
        with (Zpos (digits2_pos m) - 1 + (e - ez))%Z by lia.
      rewrite !Z.pow_add_r by lia.
      assert (0 < 2 ^ (e - ez))%Z by (apply Z.pow_pos_nonneg; lia). nia. }
    assert (fexp64 (Zdigits2 mz + ez) = f) as Hf.
    { rewrite Hdz. unfold f. f_equal. lia. }
    rewrite Z2Pos.id by done.
    destruct (binary_round_aux_Q s mz ez loc_Exact mz 1 (inject_Z mz)) as [Hfin Herr].
    - apply located_of_loc. lia.
    - ring.
    - rewrite Hf. replace (Z.max ez f) with f by (unfold ez; lia).
      rewrite <- Hf. apply (fexp64_room mz ez (inject_Z mz * 2 ^ ez)); [done | apply Qle_refl |].
      by rewrite Hval.
    - split; [exact Hfin |]. rewrite Hf in Herr.
      replace (Z.max ez f) with f in Herr by (unfold ez; lia).
      rewrite Hval in Herr. eapply Qle_trans; [exact Herr |].
      rewrite <- Hf, <- Hval. apply half_ulp_bound; [done | apply Qle_refl]. }
  unfold r, v in *. destruct S as [| m | m]; simpl binary_normalize.
  - split; [done |]. apply exact_within. simpl. ring.
  - assert (0 <= inject_Z (Zpos m) * 2 ^ e) as Hnn.
    { apply Qmult_le_0_compat; [done | apply Qlt_le_weak, pow2_pos]. }
    rewrite (Qabs_pos _ Hnn) in Hlt |- *.
    destruct (Hround false m Hlt) as [Hfin Herr]. split; [done |].
    unfold sgn in Herr. by rewrite Qmult_1_l in Herr.
  - assert (0 <= inject_Z (Zpos m) * 2 ^ e) as Hnn.
    { apply Qmult_le_0_compat; [done | apply Qlt_le_weak, pow2_pos]. }
    assert (inject_Z (Zneg m) * 2 ^ e == - (inject_Z (Zpos m) * 2 ^ e)) as Hneg.
    { change (Zneg m) with (- Zpos m)%Z. rewrite inject_Z_opp. ring. }
    rewrite Hneg in Hlt |- *. rewrite Qabs_opp, (Qabs_pos _ Hnn) in Hlt |- *.
    destruct (Hround true m Hlt) as [Hfin Herr]. split; [done |].
    unfold sgn in Herr.
    by setoid_replace (-1 * (inject_Z (Zpos m) * 2 ^ e))
      with (- (inject_Z (Zpos m) * 2 ^ e)) using relation Qeq in Herr by ring.
Qed.

(** A finite number as an integer multiple of a power of two not above its
    own exponent. *)
Lemma aligned_value (s : bool) (m : positive) (e ez : Z) :
  (ez <= e)%Z →
  inject_Z (cond_Zopp s (Zpos (fst (shl_align m e ez)))) * 2 ^ ez
    == SF2Q (S754_finite s m e).
Proof.
  intros Hle. destruct (shl_align_value m e ez) as [-> Hpos]. simpl fst.
  replace (Z.min e ez) with ez in * by lia.
  rewrite Z2Pos.id by done. rewrite SF2Q_finite.
  assert (inject_Z (cond_Zopp s (Zpos m * 2 ^ (e - ez)))
          == sgn s * inject_Z (Zpos m) * 2 ^ (e - ez)) as ->.
  { destruct s; unfold sgn, cond_Zopp;
      rewrite ?inject_Z_opp, inject_Z_mult, pow2_inject by lia; ring. }
  assert (2 ^ e == 2 ^ (e - ez) * 2 ^ ez) as ->; [| ring].
  rewrite <- pow2_add. by replace (e - ez + ez)%Z with e by lia.
Qed.

Lemma SFadd_error (x y : spec_float) :
  SF_finite x = true → SF_finite y = true →
  Qabs (SF2Q x + SF2Q y) < 2 ^ 1023 →
  SF_finite (SF64add x y) = true ∧
  Qabs (SF2Q (SF64add x y) - (SF2Q x + SF2Q y))
    <= 2 ^ (-53) * Qabs (SF2Q x + SF2Q y) + 2 ^ (-1075).
Proof.
  intros Hfx Hfy Hlt.
  destruct x as [sx | sx | | sx mx ex], y as [sy | sy | | sy my ey];
    try discriminate; unfold SF64add, SFadd.
  - split; [by destruct sx, sy |]. apply exact_within. destruct sx, sy; simpl; ring.
  - split; [done |]. apply exact_within. change (SF2Q (S754_zero sx)) with 0. ring.
  - split; [done |]. apply exact_within. change (SF2Q (S754_zero sy)) with 0. ring.
  - set (ez := Z.min ex ey).
    assert (SF2Q (S754_finite sx mx ex) + SF2Q (S754_finite sy my ey)
            == inject_Z (cond_Zopp sx (Zpos (fst (shl_align mx ex ez)))
                         + cond_Zopp sy (Zpos (fst (shl_align my ey ez)))) * 2 ^ ez) as Hsum.
    { rewrite inject_Z_plus, Qmult_plus_distr_l, !aligned_value by (unfold ez; lia). done. }
    rewrite Hsum in Hlt |- *. by apply binary_normalize_error.
Qed.

Lemma SFsub_error (x y : spec_float) :
  SF_finite x = true → SF_finite y = true →
  Qabs (SF2Q x - SF2Q y) < 2 ^ 1023 →
  SF_finite (SF64sub x y) = true ∧
  Qabs (SF2Q (SF64sub x y) - (SF2Q x - SF2Q y))
    <= 2 ^ (-53) * Qabs (SF2Q x - SF2Q y) + 2 ^ (-1075).
Proof.
  intros Hfx Hfy Hlt.
  destruct x as [sx | sx | | sx mx ex], y as [sy | sy | | sy my ey];
    try discriminate; unfold SF64sub, SFsub.
  - split; [by destruct sx, sy |]. apply exact_within. by destruct sx, sy.
  - split; [done |]. apply exact_within. rewrite !SF2Q_finite.
    change (SF2Q (S754_zero sx)) with 0.
    destruct sy; cbv [sgn negb]; ring.
  - split; [done |]. apply exact_within. change (SF2Q (S754_zero sy)) with 0. ring.
  - set (ez := Z.min ex ey).
    assert (SF2Q (S754_finite sx mx ex) - SF2Q (S754_finite sy my ey)
            == inject_Z (cond_Zopp sx (Zpos (fst (shl_align mx ex ez)))
                         - cond_Zopp sy (Zpos (fst (shl_align my ey ez)))) * 2 ^ ez) as Hsum.
    { unfold Z.sub, Qminus. rewrite inject_Z_plus, inject_Z_opp, Qmult_plus_distr_l.
      rewrite <- !(aligned_value _ _ _ ez) by (unfold ez; lia). ring. }
    rewrite Hsum in Hlt |- *. by apply binary_normalize_error.
Qed.

(** *** Exact cases: multiplying and dividing by one *)

Local Open Scope Z_scope.

Lemma Zdigits2_mul_pow2 (m : positive) (k : Z) :
  0 <= k → Zdigits2 (Zpos m * 2 ^ k) = Zpos (digits2_pos m) + k.
Proof.
  intros Hk. assert (0 < 2 ^ k) by (apply Z.pow_pos_nonneg; lia).
  apply Zdigits2_unique; [nia |].
  pose proof (digits2_bounds m) as [Hlo Hhi].
  replace (Zpos (digits2_pos m) + k - 1) with (Zpos (digits2_pos m) - 1 + k) by lia.
  rewrite !Z.pow_add_r by lia. nia.
Qed.

(** Rounding a number that the format holds returns it. *)
Lemma binary_round_aux_exact (s : bool) (m : positive) (e : Z) (q k D : Z)
    (lx : location) :
  valid_binary (S754_finite s m e) = true →
  0 <= k → q = Zpos m * 2 ^ k →
  located (shr_record_of_loc q lx) (q * D) D →
  binary_round_aux prec emax s q (e - k) lx = S754_finite s m e.
Proof.
  intros Hv Hk Hq Hloc.
  assert (0 < 2 ^ k) as Hpk by (apply Z.pow_pos_nonneg; lia).
  pose proof (valid_finite _ _ _ Hv) as Hval. simpl in Hval.
  assert (fexp64 (Zpos (digits2_pos m) + e) = e) as Hcanon
    by (rewrite fexp64_eq; lia).
  destruct (binary_round_aux_spec s q (e - k) lx (q * D) D Hloc)
    as (n & Hn & Herr & Hr).
  assert (Zdigits2 q + (e - k) = Zpos (digits2_pos m) + e) as Hdq.
  { rewrite Hq, Zdigits2_mul_pow2 by done. lia. }
  rewrite Hdq, Hcanon in Herr, Hr.
  replace (Z.max (e - k) e) with e in Herr, Hr by lia.
  replace (e - (e - k)) with k in Herr by lia.
  assert (0 < D) as HD by (apply located_of_loc in Hloc; tauto).
  assert (n = Zpos m) as Hnm.
  { rewrite Hq in Herr. assert (0 < D * 2 ^ k) by nia.
    assert (Z.abs (n - Zpos m) * (2 * (D * 2 ^ k)) <= D * 2 ^ k) as Hb.
    { replace (n * (D * 2 ^ k) - Zpos m * 2 ^ k * D)
        with ((n - Zpos m) * (D * 2 ^ k)) in Herr by ring.
      rewrite Z.abs_mul, (Z.abs_eq (D * 2 ^ k)) in Herr by lia. lia. }
    destruct (Z.eq_dec (Z.abs (n - Zpos m)) 0); [lia | nia]. }
  destruct Hr as [[Hz _] | (m' & e' & Hm' & _ & He' & ->)]; [lia |].
  rewrite Hnm in He', Hm'. simpl Zdigits2 in He'. rewrite Hcanon in He'.
  replace (Z.max e e) with e in He' by lia. subst e'.
  rewrite Z.sub_diag, Z.mul_1_r in Hm'. injection Hm' as ->.
  destruct (Z.leb_spec e (emax - prec)); [done |].
  change (emax - prec) with 971 in *. lia.
Qed.

Lemma SFmul_one (x : spec_float) :
  valid_binary x = true → SF64mul x SF_one = x.
Proof.
  intros Hv. destruct x as [[] | [] | | s m e]; try reflexivity.
  unfold SF64mul, SFmul, SF_one. rewrite xorb_false_r.
  replace (e + -52) with (e - 52) by lia.
  apply (binary_round_aux_exact s m e _ 52 1); [done | lia | reflexivity |].
  apply located_of_loc. lia.
Qed.

Lemma SFdiv_one (x : spec_float) :
  valid_binary x = true → SF64div x SF_one = x.
Proof.
  intros Hv. destruct x as [[] | [] | | s m e]; try reflexivity.
  unfold SF64div, SFdiv, SF_one. rewrite SFdiv_core_binary_eq, xorb_false_r.
  pose proof (valid_finite _ _ _ Hv) as Hval. simpl in Hval.
  change (Zdigits2 4503599627370496) with 53.
  set (e' := Z.min (fexp64 (Zdigits2 (Zpos m) + e - (53 + -52))) (e - -52)).
  assert (e' <= e) as He' by (unfold e'; rewrite fexp64_eq; simpl Zdigits2; lia).
  set (k := e - e').
  assert (0 < 2 ^ k) as Hpk by (apply Z.pow_pos_nonneg; lia).
  assert (Zpos m * 2 ^ (e - -52 - e') = Zpos m * 2 ^ k * 4503599627370496) as Hm.
  { replace (e - -52 - e') with (k + 52) by lia.
    rewrite Z.pow_add_r by lia. change (2 ^ 52) with 4503599627370496. ring. }
  rewrite Hm, Z.div_mul, Z.mod_mul by lia.
  replace e' with (e - k) by lia.
  apply (binary_round_aux_exact s m e _ k 4503599627370496); [done | lia | reflexivity |].
  apply new_location_located; nia.
Qed.

Lemma float_mul_div_one (x : float) : (x * 1 / 1)%float = x.
Proof.
  apply Prim2SF_inj. rewrite div_spec, mul_spec.
  change (Prim2SF 1) with SF_one.
  rewrite SFmul_one by apply Prim2SF_valid.
  apply SFdiv_one, Prim2SF_valid.
Qed.

End Rounding.

(** ** One rounding, and budgets along a sequence of operations *)

Section Budgets.
Local Open Scope Q_scope.

Lemma is_finite_SF (x : float) : is_finite x = SF_finite (Prim2SF x).
Proof. unfold is_finite, SF_finite. by destruct (Prim2SF x). Qed.

Lemma float_mul_error (x y : float) :
  is_finite x = true → is_finite y = true →
  Qabs (float_toQ x * float_toQ y) < ceiling →
  is_finite (x * y) = true ∧
  Qabs (float_toQ (x * y) - float_toQ x * float_toQ y)
    <= unit_roundoff * Qabs (float_toQ x * float_toQ y) + eta.
Proof.
  rewrite !is_finite_SF. unfold float_toQ. rewrite mul_spec.
  intros. apply SFmul_error; auto using Prim2SF_valid.
Qed.

Lemma float_div_error (x y : float) :
  is_finite x = true → is_finite y = true → ¬ float_toQ y == 0 →
  Qabs (float_toQ x / float_toQ y) < ceiling →
  is_finite (x / y) = true ∧
  Qabs (float_toQ (x / y) - float_toQ x / float_toQ y)
    <= unit_roundoff * Qabs (float_toQ x / float_toQ y) + eta.
Proof.
  rewrite !is_finite_SF. unfold float_toQ. rewrite div_spec.
  intros Hx Hy Hnz Hlt. pose proof (Prim2SF_valid y) as Hvy.
  destruct (Prim2SF y) as [sy | sy | | sy my ey] eqn:Ey; try discriminate.
  - exfalso. apply Hnz. reflexivity.
  - apply SFdiv_error; auto using Prim2SF_valid.
Qed.

Lemma float_add_error (x y : float) :
  is_finite x = true → is_finite y = true →
  Qabs (float_toQ x + float_toQ y) < ceiling →
  is_finite (x + y) = true ∧
  Qabs (float_toQ (x + y) - (float_toQ x + float_toQ y))
    <= unit_roundoff * Qabs (float_toQ x + float_toQ y) + eta.
Proof.
  rewrite !is_finite_SF. unfold float_toQ. rewrite add_spec.
  intros. by apply SFadd_error.
Qed.

Lemma float_sub_error (x y : float) :
  is_finite x = true → is_finite y = true →
  Qabs (float_toQ x - float_toQ y) < ceiling →
  is_finite (x - y) = true ∧
  Qabs (float_toQ (x - y) - (float_toQ x - float_toQ y))
    <= unit_roundoff * Qabs (float_toQ x - float_toQ y) + eta.
Proof.
  rewrite !is_finite_SF. unfold float_toQ. rewrite sub_spec.
  intros. by apply SFsub_error.
Qed.

Lemma Qlt_bool_lt (a b : Q) : Qlt_bool a b = true → a < b.
Proof.
  unfold Qlt_bool. intros H. apply negb_true_iff in H.
  apply Qnot_le_lt. intros Hle. apply Qle_bool_iff in Hle. congruence.
Qed.

Lemma unit_roundoff_pos : 0 < unit_roundoff.
Proof. apply pow2_pos. Qed.

Lemma eta_pos : 0 < eta.
Proof. apply pow2_pos. Qed.

Ltac nonneg :=
  lazymatch goal with
  | |- 0 <= _ * _ => apply Qmult_le_0_compat; nonneg
  | |- 0 <= _ + _ =>
      apply (Qle_trans _ (0 + 0)); [lra | apply Qplus_le_compat; nonneg]
  | |- _ => first [assumption | apply Qlt_le_weak; assumption | lra]
  end.

(** The size of the computed value. *)
Lemma within_reach (vmax : Q) (b : budget) (V : Q) (x : float) (X : Q) :
  within b V x X → Qabs V <= vmax →
  Qabs (float_toQ x) <= (mag_rel b + err_rel b) * Qabs V + (mag_abs b + err_abs b) ∧
  (mag_rel b + err_rel b) * Qabs V + (mag_abs b + err_abs b) <= reach vmax b.
Proof.
  intros (_ & He & Hm & H1 & H2 & H3 & H4) Hv. split.
  - setoid_replace (float_toQ x) with ((float_toQ x - X) + X) using relation Qeq by ring.
    eapply Qle_trans; [apply Qabs_triangle |]. lra.
  - unfold reach. pose proof (Qabs_nonneg V). nra.
Qed.

Lemma scale_sound (b : budget) (V : Q) (x r : float) (X Cf C : Q) :
  within b V x X →
  is_finite r = true →
  Qabs (float_toQ r - float_toQ x * Cf)
    <= unit_roundoff * Qabs (float_toQ x * Cf) + eta →
  within (scale b (Qabs Cf) (Qabs C) (Qabs (Cf - C))) V r (X * C).
Proof.
  intros Hw Hfin Herr.
  destruct (within_reach (Qabs V) b V x X Hw (Qle_refl _)) as [Hx _].
  destruct Hw as (_ & He & Hm & H1 & H2 & H3 & H4).
  pose proof unit_roundoff_pos as Hu. pose proof eta_pos as Heta.
  pose proof (Qabs_nonneg V) as Hv.
  pose proof (Qabs_nonneg Cf) as Hcf. pose proof (Qabs_nonneg C) as Hc.
  pose proof (Qabs_nonneg (Cf - C)) as Hd.
  rewrite Qabs_Qmult in Herr.
  unfold within, scale. cbn [err_rel err_abs mag_rel mag_abs].
  revert Herr Hu Heta. generalize unit_roundoff, eta. intros u η Herr Hu Heta.
  split; [exact Hfin |]. split; [| split; [| repeat split; nonneg]].
  - setoid_replace (float_toQ r - X * C)
      with ((float_toQ r - float_toQ x * Cf) + ((float_toQ x - X) * Cf + X * (Cf - C)))
      using relation Qeq by ring.
    eapply Qle_trans; [apply Qabs_triangle |].
    assert (Qabs ((float_toQ x - X) * Cf + X * (Cf - C))
            <= Qabs (float_toQ x - X) * Qabs Cf + Qabs X * Qabs (Cf - C)) as Ht.
    { eapply Qle_trans; [apply Qabs_triangle |]. rewrite !Qabs_Qmult. apply Qle_refl. }
    revert He Hx Herr Ht Hm Hcf Hd.
    generalize (Qabs (float_toQ r - float_toQ x * Cf)) (Qabs (float_toQ x - X))
      (Qabs (float_toQ x)) (Qabs V) (Qabs Cf) (Qabs (Cf - C)) (Qabs X)
      (Qabs ((float_toQ x - X) * Cf + X * (Cf - C))).
    intros t1 t2 t3 v a d m t5 He Hx Herr Ht Hm Ha Hd.
    assert (t2 * a <= (err_rel b * v + err_abs b) * a)
      by (by apply Qmult_le_compat_r).
    assert (m * d <= (mag_rel b * v + mag_abs b) * d)
      by (by apply Qmult_le_compat_r).
    assert (t3 * a <= ((mag_rel b + err_rel b) * v + (mag_abs b + err_abs b)) * a)
      by (by apply Qmult_le_compat_r).
    assert (u * (t3 * a)
            <= u * (((mag_rel b + err_rel b) * v + (mag_abs b + err_abs b)) * a))
      by (by apply Qmult_le_l).
    lra.
  - rewrite Qabs_Qmult.
    assert (Qabs X * Qabs C <= (mag_rel b * Qabs V + mag_abs b) * Qabs C)
      by (by apply Qmult_le_compat_r).
    lra.
Qed.

Lemma shift_sound (b : budget) (V : Q) (x r : float) (X Cf C : Q) :
  within b V x X →
  is_finite r = true →
  Qabs (float_toQ r - (float_toQ x + Cf))
    <= unit_roundoff * Qabs (float_toQ x + Cf) + eta →
  within (shift b (Qabs Cf) (Qabs C) (Qabs (Cf - C))) V r (X + C).
Proof.
  intros Hw Hfin Herr.
  destruct (within_reach (Qabs V) b V x X Hw (Qle_refl _)) as [Hx _].
  destruct Hw as (_ & He & Hm & H1 & H2 & H3 & H4).
  pose proof unit_roundoff_pos as Hu. pose proof eta_pos as Heta.
  pose proof (Qabs_nonneg V) as Hv.
  pose proof (Qabs_nonneg Cf) as Hcf. pose proof (Qabs_nonneg C) as Hc.
  pose proof (Qabs_nonneg (Cf - C)) as Hd.
  pose proof (Qabs_triangle (float_toQ x) Cf) as Ht1.
  pose proof (Qabs_triangle X C) as Ht2.
  unfold within, shift. cbn [err_rel err_abs mag_rel mag_abs].
  revert Herr Hu Heta. generalize unit_roundoff, eta. intros u η Herr Hu Heta.
  split; [exact Hfin |]. split; [| split; [lra | repeat split; nonneg]].
  setoid_replace (float_toQ r - (X + C))
    with ((float_toQ r - (float_toQ x + Cf)) + ((float_toQ x - X) + (Cf - C)))
    using relation Qeq by ring.
  eapply Qle_trans; [apply Qabs_triangle |].
  pose proof (Qabs_triangle (float_toQ x - X) (Cf - C)) as Ht3.
  revert He Hx Herr Ht1 Ht3 Hcf Hd.
  generalize (Qabs (float_toQ r - (float_toQ x + Cf))) (Qabs (float_toQ x - X))
    (Qabs (float_toQ x)) (Qabs (float_toQ x + Cf)) (Qabs V) (Qabs Cf) (Qabs (Cf - C))
    (Qabs (float_toQ x - X + (Cf - C))).
  intros t1 t2 t3 t4 v a d t5 He Hx Herr Ht1 Ht3 Ha Hd.
  assert (u * t4
          <= u * ((mag_rel b + err_rel b) * v + (mag_abs b + err_abs b) + a))
    by (apply Qmult_le_l; [done | lra]).
  lra.
Qed.

Lemma Qabs_Qinv (c : Q) : ¬ c == 0 → Qabs (/ c) == / Qabs c.
Proof.
  intros Hc. apply Qabs_case; intros H.
  - rewrite Qabs_pos; [reflexivity |].
    destruct (Qlt_le_dec 0 c) as [Hp | Hn]; [lra |].
    assert (c < 0) by (apply Qle_lteq in Hn as [? | E]; [done | by destruct Hc]).
    pose proof (Qinv_lt_0_compat (- c) ltac:(lra)) as Hi.
    assert (/ - c == - / c) as E by (by field). rewrite E in Hi. lra.
  - rewrite Qabs_neg; [by field |].
    destruct (Qlt_le_dec 0 c) as [Hp | Hn]; [| done].
    pose proof (Qinv_lt_0_compat c Hp). lra.
Qed.

Lemma Qmult_le_left (z x y : Q) : 0 <= z → x <= y → z * x <= z * y.
Proof.
  intros Hz Hxy. rewrite (Qmult_comm z x), (Qmult_comm z y).
  by apply Qmult_le_compat_r.
Qed.

Lemma eta_le_1 : eta <= 1.
Proof. change 1 with (2 ^ 0). apply pow2_le. lia. Qed.

Lemma sound_ext (t t' : tally) (V : Q) (x : float) (X : Q) :
  rel_err t == rel_err t' → fix_err t == fix_err t' → eta_err t == eta_err t' →
  rel_mag t == rel_mag t' → abs_mag t == abs_mag t' →
  sound t V x X → sound t' V x X.
Proof.
  unfold sound, within, budget_of. cbn [err_rel err_abs mag_rel mag_abs].
  by intros -> -> -> -> ->.
Qed.

Lemma sound_reduce (t : tally) (V : Q) (x : float) (X : Q) :
  sound t V x X → sound (tally_reduce t) V x X.
Proof.
  apply sound_ext; unfold tally_reduce;
    cbn [rel_err fix_err eta_err rel_mag abs_mag]; by rewrite Qred_correct.
Qed.

(** The size of the computed value, for inputs of size between 1 and
    [vmax]. *)
Lemma sound_size (vmax : Q) (t : tally) (V : Q) (x : float) (X : Q) :
  sound t V x X → Qabs V <= vmax → 1 <= vmax →
  Qabs (float_toQ x) <= vmax * spread t ∧ 0 <= spread t.
Proof.
  intros (Hw & Hfix & Heta) Hv Hmax.
  destruct (within_reach (Qabs V) _ V x X Hw (Qle_refl _)) as [Hx _].
  destruct Hw as (_ & _ & _ & H1 & H2 & H3 & H4).
  revert Hx H1 H2 H3 H4. unfold budget_of, spread.
  cbn [err_rel err_abs mag_rel mag_abs].
  pose proof eta_le_1 as Hle. pose proof eta_pos as Hpos.
  pose proof (Qabs_nonneg V) as HV.
  generalize dependent (Qabs V). generalize (Qabs (float_toQ x)).
  generalize dependent eta.
  intros η Hle Hpos a v Hv HV Hx H1 H2 H3 H4.
  assert (eta_err t * η <= eta_err t * 1) as He
    by (by apply Qmult_le_left).
  assert ((rel_mag t + rel_err t) * v <= (rel_mag t + rel_err t) * vmax) as Hr.
  { apply Qmult_le_left; [lra | done]. }
  assert ((abs_mag t + fix_err t + eta_err t) * 1
          <= (abs_mag t + fix_err t + eta_err t) * vmax) as Ha.
  { apply Qmult_le_left; [lra | done]. }
  split; lra.
Qed.

Lemma sound_scale (t : tally) (V : Q) (x r : float) (X Cf C : Q) :
  sound t V x X →
  is_finite r = true →
  Qabs (float_toQ r - float_toQ x * Cf)
    <= unit_roundoff * Qabs (float_toQ x * Cf) + eta →
  sound (tally_scale t (Qabs Cf) (Qabs C) (Qabs (Cf - C))) V r (X * C).
Proof.
  intros (Hw & Hfix & Heta) Hfin Herr.
  pose proof (scale_sound _ V x r X Cf C Hw Hfin Herr) as Hs.
  destruct Hw as (_ & _ & _ & H1 & H2 & H3 & H4).
  revert Hs H1 H2 H3 H4. unfold sound, within, budget_of, scale, tally_scale.
  cbn [err_rel err_abs mag_rel mag_abs rel_err fix_err eta_err rel_mag abs_mag].
  pose proof unit_roundoff_pos as Hu. pose proof eta_pos as Hpos.
  pose proof (Qabs_nonneg Cf) as Hcf. pose proof (Qabs_nonneg C) as Hc.
  pose proof (Qabs_nonneg (Cf - C)) as Hd.
  intros (Hf & He & Hm & _) H1 H2 H3 H4.
  split; [split; [done | split; [| split; [done |]]] | split].
  - eapply Qle_trans; [exact He |]. apply Qplus_le_compat; [apply Qle_refl |].
    apply Qle_lteq. right. ring.
  - repeat split; nonneg.
  - nonneg.
  - nonneg.
Qed.

Lemma sound_shift (t : tally) (V : Q) (x r : float) (X Cf C : Q) :
  sound t V x X →
  is_finite r = true →
  Qabs (float_toQ r - (float_toQ x + Cf))
    <= unit_roundoff * Qabs (float_toQ x + Cf) + eta →
  sound (tally_shift t (Qabs Cf) (Qabs C) (Qabs (Cf - C))) V r (X + C).
Proof.
  intros (Hw & Hfix & Heta) Hfin Herr.
  pose proof (shift_sound _ V x r X Cf C Hw Hfin Herr) as Hs.
  destruct Hw as (_ & _ & _ & H1 & H2 & H3 & H4).
  revert Hs H1 H2 H3 H4. unfold sound, within, budget_of, shift, tally_shift.
  cbn [err_rel err_abs mag_rel mag_abs rel_err fix_err eta_err rel_mag abs_mag].
  pose proof unit_roundoff_pos as Hu. pose proof eta_pos as Hpos.
  pose proof (Qabs_nonneg Cf) as Hcf. pose proof (Qabs_nonneg C) as Hc.
  pose proof (Qabs_nonneg (Cf - C)) as Hd.
  intros (Hf & He & Hm & _) H1 H2 H3 H4.
  split; [split; [done | split; [| split; [done |]]] | split].
  - eapply Qle_trans; [exact He |]. apply Qplus_le_compat; [apply Qle_refl |].
    apply Qle_lteq. right. ring.
  - repeat split; nonneg.
  - nonneg.
  - nonneg.
Qed.

Lemma op_sound (ref : Q → Q) (headroom vmax : Q) (t : tally) (V : Q) (x : float)
    (X : Q) (o : op) :
  sound t V x X → Qabs V <= vmax → 1 <= vmax → vmax * headroom <= ceiling →
  op_ok ref headroom t o = true →
  sound (tally_step ref t o) V (apply_op x o) (ideal_op ref X o).
Proof.
  intros Hs Hv Hmax Hroom Hok.
  destruct (sound_size vmax t V x X Hs Hv Hmax) as [Hx Hsp].
  assert (is_finite x = true) as Hfx by apply Hs.
  assert (∀ a, a < headroom → vmax * a < ceiling) as Hguard.
  { intros a Ha. eapply Qlt_le_trans; [| exact Hroom].
    apply Qmult_lt_l; [lra | done]. }
  destruct o as [q | q | q | q]; unfold tally_step, op_ok in *;
    cbn [apply_op ideal_op lit float_Number nmul ndiv nadd nsub] in *;
    apply sound_reduce; unfold double_of in *;
    set (Cf := float_toQ (nearest_float q)) in *.
  - apply andb_prop in Hok as [Hc Hlt]. apply Qlt_bool_lt in Hlt.
    destruct (float_mul_error x (nearest_float q) Hfx Hc) as [Hf He].
    { fold Cf. rewrite Qabs_Qmult. eapply Qle_lt_trans; [| exact (Hguard _ Hlt)].
      rewrite Qmult_assoc. apply Qmult_le_compat_r; [done | apply Qabs_nonneg]. }
    by apply (sound_scale t V x _ X Cf (ref q)).
  - apply andb_prop in Hok as [Hok Hlt]. apply andb_prop in Hok as [Hok Hnr].
    apply andb_prop in Hok as [Hc Hnz].
    apply Qlt_bool_lt in Hlt. apply negb_true_iff in Hnz, Hnr.
    assert (¬ Cf == 0) as Hc0.
    { intros E. apply Qeq_bool_iff in E. congruence. }
    assert (¬ ref q == 0) as Hr0.
    { intros E. apply Qeq_bool_iff in E. congruence. }
    assert (0 <= / Qabs Cf) as Hinv.
    { apply Qinv_le_0_compat, Qabs_nonneg. }
    destruct (float_div_error x (nearest_float q) Hfx Hc Hc0) as [Hf He].
    { fold Cf. unfold Qdiv. rewrite Qabs_Qmult, Qabs_Qinv by done.
      eapply Qle_lt_trans; [| exact (Hguard _ Hlt)].
      rewrite Qmult_assoc. by apply Qmult_le_compat_r. }
    pose proof (sound_scale t V x _ X (/ Cf) (/ ref q) Hs Hf He) as H.
    revert H. apply sound_ext; unfold tally_scale;
      cbn [rel_err fix_err eta_err rel_mag abs_mag];
      by rewrite ?(Qabs_Qinv Cf), ?(Qabs_Qinv (ref q)) by done.
  - apply andb_prop in Hok as [Hc Hlt]. apply Qlt_bool_lt in Hlt.
    pose proof (Qabs_nonneg Cf) as Hcf.
    destruct (float_add_error x (nearest_float q) Hfx Hc) as [Hf He].
    { fold Cf. eapply Qle_lt_trans; [apply Qabs_triangle |].
      eapply Qle_lt_trans; [| exact (Hguard _ Hlt)].
      assert (Qabs Cf * 1 <= Qabs Cf * vmax) by (by apply Qmult_le_left).
      lra. }
    by apply (sound_shift t V x _ X Cf (ref q)).
  - apply andb_prop in Hok as [Hc Hlt]. apply Qlt_bool_lt in Hlt.
    pose proof (Qabs_nonneg Cf) as Hcf.
    destruct (float_sub_error x (nearest_float q) Hfx Hc) as [Hf He].
    { fold Cf. eapply Qle_lt_trans; [apply Qabs_triangle |].
      rewrite Qabs_opp. eapply Qle_lt_trans; [| exact (Hguard _ Hlt)].
      assert (Qabs Cf * 1 <= Qabs Cf * vmax) by (by apply Qmult_le_left).
      lra. }
    pose proof (sound_shift t V x _ X (- Cf) (- ref q) Hs Hf He) as H.
    revert H. apply sound_ext; unfold tally_shift;
      cbn [rel_err fix_err eta_err rel_mag abs_mag]; rewrite ?Qabs_opp;
      try reflexivity.
    setoid_replace (- Cf - - ref q) with (- (Cf - ref q)) using relation Qeq by ring.
    by rewrite Qabs_opp.
Qed.

Lemma check_sound (ref : Q → Q) (headroom vmax : Q) (ops : list op) (t t' : tally)
    (V : Q) (x : float) (X : Q) :
  sound t V x X → Qabs V <= vmax → 1 <= vmax → vmax * headroom <= ceiling →
  check ref headroom t ops = Some t' →
  sound t' V (apply_ops ops x) (ideal ref ops X).
Proof.
  unfold apply_ops, ideal. intros Hs Hv Hmax Hroom. revert t x X Hs.
  induction ops as [| o ops IH]; intros t x X Hs Hc; simpl in *.
  - by injection Hc as <-.
  - destruct (op_ok ref headroom t o) eqn:Hok; [| discriminate].
    eapply IH; [| exact Hc]. by apply (op_sound ref headroom vmax).
Qed.

Lemma sound_start (x : float) :
  is_finite x = true → sound tally_start (float_toQ x) x (float_toQ x).
Proof.
  intros Hx. unfold sound, within, budget_of, tally_start.
  cbn [err_rel err_abs mag_rel mag_abs rel_err fix_err eta_err rel_mag abs_mag].
  pose proof eta_pos.
  split; [| split; lra]. split; [done |]. split; [| split; [| repeat split; lra]].
  - apply Qabs_Qle_condition. split; lra.
  - lra.
Qed.

Lemma ideal_affine (ref : Q → Q) (ops : list op) (X : Q) :
  nonzero_divisors ref ops = true →
  ideal ref ops X == fst (affine ref ops) * X + snd (affine ref ops).
Proof.
  unfold ideal, affine, nonzero_divisors. intros Hnz.
  assert (∀ ab Y, Y == fst ab * X + snd ab →
    fold_left (ideal_op ref) ops Y
      == fst (fold_left (affine_op ref) ops ab) * X
         + snd (fold_left (affine_op ref) ops ab)) as H.
  { induction ops as [| o ops IH]; intros [a b] Y HY; simpl in *; [done |].
    apply andb_prop in Hnz as [Ho Hnz].
    apply IH; [done |].
    destruct o as [q | q | q | q]; simpl; rewrite ?Qred_correct, HY; try ring.
    apply negb_true_iff in Ho.
    field. intros E. apply Qeq_bool_iff in E. congruence. }
  apply H. simpl. ring.
Qed.

(** With the literals read as themselves, [ideal] is the code on [Q]. *)
Lemma ideal_id (ops : list op) (X : Q) :
  ideal (fun q => q) ops X = apply_ops (num := Q) ops X.
Proof.
  unfold ideal, apply_ops. revert X.
  induction ops as [| o ops IH]; intros X; simpl; [done |].
  rewrite IH. by destruct o.
Qed.

End Budgets.

(** ** The engine in double precision *)

Section Doubles.
Local Open Scope Q_scope.

Section TemperatureTable.
Context {num : Type} `{Number num}.

Lemma temperature_table :
  ∃ table, conversions (num := num) !! "Temperature" = Some table ∧
    ∀ unit, (unit ∈ ["Celsius"; "Fahrenheit"; "Kelvin"] →
               ∃ f, table !! unit = Some (Formula f)) ∧
            (unit ∉ ["Celsius"; "Fahrenheit"; "Kelvin"] → table !! unit = None).
Proof.
  eexists; split; [reflexivity |].
  intros unit; split.
  - intros Hin; pick_member Hin; eexists; reflexivity.
  - intros Hn; rewrite !lookup_insert_ne, lookup_singleton_ne; [done | set_solver ..].
Qed.

End TemperatureTable.

Lemma factor_lit {num : Type} `{Number num} (c u : string) :
  factor (num := num) c u = lit <$> factor (num := Q) c u.
Proof.
  destruct (decide (c ∈ categories)) as [Hc | Hc].
  - assert (c = "Temperature" ∨ c ∈ ["Length"; "Weight"; "Volume"]) as [-> | Hm].
    { unfold categories in Hc.
      pick_member Hc; [right | right | by left | right]; repeat constructor. }
    + destruct (temperature_table (num := num)) as (t1 & Ht1 & Hu1).
      destruct (temperature_table (num := Q)) as (t2 & Ht2 & Hu2).
      unfold factor. rewrite Ht1, Ht2.
      destruct (decide (u ∈ ["Celsius"; "Fahrenheit"; "Kelvin"])) as [Hu | Hu].
      * destruct (proj1 (Hu1 u) Hu) as [f1 ->].
        by destruct (proj1 (Hu2 u) Hu) as [f2 ->].
      * by rewrite (proj2 (Hu1 u) Hu), (proj2 (Hu2 u) Hu).
    + assert (∃ units, unit_options !! c = Some units) as [units Hunits].
      { pick_member Hm; eexists; reflexivity. }
      destruct (decide (u ∈ units)) as [Hu | Hu].
      * pick_member Hm; vm_compute in Hunits; injection Hunits as <-;
          pick_member Hu; reflexivity.
      * destruct (table_units (num := num) c units Hm Hunits) as (t1 & Ht1 & Hu1).
        destruct (table_units (num := Q) c units Hm Hunits) as (t2 & Ht2 & Hu2).
        unfold factor.
        by rewrite Ht1, Ht2, (proj2 (Hu1 u) Hu), (proj2 (Hu2 u) Hu).
  - unfold factor.
    by rewrite (conversions_unknown_category (num := num) _ Hc),
      (conversions_unknown_category (num := Q) _ Hc).
Qed.

Lemma convert_units_of_factors {num : Type} `{Number num} (c f t : string)
    (x y v : num) :
  String.eqb c "Temperature" = false →
  factor c f = Some x → factor c t = Some y →
  convert_units v f t c = Ok (v * x / y)%num.
Proof.
  unfold factor, convert_units, getitem. intros -> Hx Hy.
  destruct (conversions !! c) as [table |]; [| discriminate]. simpl.
  destruct (table !! f) as [[x' | ] |]; try discriminate. injection Hx as ->.
  destruct (table !! t) as [[y' | ] |]; try discriminate. injection Hy as ->.
  done.
Qed.

(** [ops_of] lists what [convert_units] does, in any arithmetic. *)
Lemma ops_of_sound {num : Type} `{Number num} (c f t : string) (ops : list op)
    (v : num) :
  ops_of c f t = Some ops → convert_units v f t c = Ok (apply_ops ops v).
Proof.
  unfold ops_of. destruct (String.eqb c "Temperature") eqn:Hc.
  - apply String.eqb_eq in Hc as ->.
    unfold to_celsius_ops, from_celsius_ops, convert_units, apply_ops.
    destruct (String.eqb_spec f "Celsius") as [-> | _];
      [| destruct (String.eqb_spec f "Fahrenheit") as [-> | _];
         [| destruct (String.eqb_spec f "Kelvin") as [-> | _]; [| discriminate]]].
    all: destruct (String.eqb_spec t "Celsius") as [-> | _];
      [| destruct (String.eqb_spec t "Fahrenheit") as [-> | _];
         [| destruct (String.eqb_spec t "Kelvin") as [-> | _]; [| discriminate]]].
    all: intros [= <-]; reflexivity.
  - destruct (factor (num := Q) c f) as [x |] eqn:Hx; [| discriminate].
    destruct (factor (num := Q) c t) as [y |] eqn:Hy; [| discriminate].
    intros [= <-]. simpl.
    apply convert_units_of_factors; [done | ..]; rewrite factor_lit.
    + by rewrite Hx.
    + by rewrite Hy.
Qed.

Lemma all_pairs_spec (P : string → string → string → bool) (cats : list string)
    (c : string) (units : list string) (f t : string) :
  all_pairs P cats = true →
  c ∈ cats → unit_options !! c = Some units → f ∈ units → t ∈ units →
  P c f t = true.
Proof.
  unfold all_pairs. intros Hall Hc Hu Hf Ht.
  rewrite forallb_forall in Hall.
  specialize (Hall c (proj1 (list_elem_of_In _ _) Hc)). rewrite Hu in Hall.
  rewrite forallb_forall in Hall.
  specialize (Hall f (proj1 (list_elem_of_In _ _) Hf)).
  rewrite forallb_forall in Hall.
  exact (Hall t (proj1 (list_elem_of_In _ _) Ht)).
Qed.

Lemma apply_ops_app {num : Type} `{Number num} (a b : list op) (v : num) :
  apply_ops (a ++ b) v = apply_ops b (apply_ops a v).
Proof. unfold apply_ops. apply fold_left_app. Qed.

(** What a passed [check] promises. *)
Lemma budget_sound (ref : Q → Q) (headroom vmax : Q) (ops : list op) (t : tally)
    (x : float) :
  check ref headroom tally_start ops = Some t →
  1 <= vmax → vmax * headroom <= ceiling →
  is_finite x = true → Qabs (float_toQ x) <= vmax →
  is_finite (apply_ops ops x) = true ∧
  Qabs (float_toQ (apply_ops ops x) - ideal ref ops (float_toQ x))
    <= rel_err t * Qabs (float_toQ x) + (fix_err t + eta_err t * eta) ∧
  0 <= eta_err t.
Proof.
  intros Hc Hmax Hroom Hx Hv.
  destruct (check_sound ref headroom vmax ops tally_start t (float_toQ x) x
              (float_toQ x) (sound_start x Hx) Hv Hmax Hroom Hc)
    as ((Hf & He & _) & _ & Heta).
  by split.
Qed.

Lemma tolerance (fixed tiny abs a b : Q) :
  fixed + tiny * eta <= abs → a <= fixed → b <= tiny → 0 <= b →
  a + b * eta <= abs.
Proof.
  intros Habs Ha Hb H0. pose proof eta_pos as Hpos.
  assert (b * eta <= tiny * eta) by (apply Qmult_le_compat_r; [done | lra]).
  lra.
Qed.

Lemma round_trip_ok_sound (headroom vmax rel fixed tiny abs : Q) (c f t : string)
    (v : float) :
  round_trip_ok headroom rel fixed tiny c f t = true →
  1 <= vmax → vmax * headroom <= ceiling → fixed + tiny * eta <= abs →
  is_finite v = true → Qabs (float_toQ v) <= vmax →
  ∃ there back,
    convert_units v f t c = Ok there ∧
    convert_units there t f c = Ok back ∧
    is_finite back = true ∧
    Qabs (float_toQ back - float_toQ v) <= rel * Qabs (float_toQ v) + abs.
Proof.
  unfold round_trip_ok. intros Hok Hmax Hroom Htol Hv Hle.
  destruct (ops_of c f t) as [a |] eqn:Ha; [| discriminate].
  destruct (ops_of c t f) as [b |] eqn:Hb; [| discriminate].
  cbv zeta in Hok.
  destruct (check double_of headroom tally_start (a ++ b)) as [bd |] eqn:Hc;
    [| discriminate].
  apply andb_prop in Hok as [Hok Hi]. apply andb_prop in Hok as [Hok Hs].
  apply andb_prop in Hok as [Hok Hnz]. apply andb_prop in Hok as [Hok Htiny].
  apply andb_prop in Hok as [Hr Hfix].
  apply Qle_bool_iff in Hr, Hfix, Htiny. apply Qeq_bool_iff in Hs, Hi.
  exists (apply_ops a v), (apply_ops b (apply_ops a v)).
  split; [by apply ops_of_sound |]. split; [by apply ops_of_sound |].
  destruct (budget_sound double_of headroom vmax (a ++ b)%list bd v Hc Hmax Hroom
              Hv Hle) as (Hf & He & H0).
  rewrite apply_ops_app in Hf, He. split; [done |].
  rewrite (ideal_affine _ _ _ Hnz), Hs, Hi in He.
  setoid_replace (1 * float_toQ v + 0) with (float_toQ v)
    using relation Qeq in He by ring.
  eapply Qle_trans; [exact He |].
  pose proof (Qabs_nonneg (float_toQ v)).
  apply Qplus_le_compat; [by apply Qmult_le_compat_r |].
  by apply (tolerance fixed tiny).
Qed.

Lemma accurate_ok_sound (relative_to_result : bool)
    (headroom vmax rel fixed tiny abs : Q) (c f t : string) (v : float) :
  accurate_ok relative_to_result headroom rel fixed tiny c f t = true →
  1 <= vmax → vmax * headroom <= ceiling → fixed + tiny * eta <= abs →
  is_finite v = true → Qabs (float_toQ v) <= vmax →
  ∃ (r : float) (X : Q),
    convert_units v f t c = Ok r ∧
    convert_units (float_toQ v) f t c = Ok X ∧
    is_finite r = true ∧
    Qabs (float_toQ r - X)
      <= rel * Qabs (if relative_to_result then X else float_toQ v) + abs.
Proof.
  unfold accurate_ok. intros Hok Hmax Hroom Htol Hv Hle.
  destruct (ops_of c f t) as [ops |] eqn:Ho; [| discriminate].
  destruct (check as_written headroom tally_start ops) as [bd |] eqn:Hc; [| discriminate].
  apply andb_prop in Hok as [Hok Hrel]. apply andb_prop in Hok as [Hok Hnz].
  apply andb_prop in Hok as [Hfix Htiny].
  apply Qle_bool_iff in Hfix, Htiny.
  exists (apply_ops ops v), (apply_ops (num := Q) ops (float_toQ v)).
  split; [by apply ops_of_sound |]. split; [by apply ops_of_sound |].
  destruct (budget_sound as_written headroom vmax ops bd v Hc Hmax Hroom Hv Hle)
    as (Hf & He & H0).
  split; [done |].
  change as_written with (fun q : Q => q) in He at 1. rewrite ideal_id in He.
  eapply Qle_trans; [exact He |].
  apply Qplus_le_compat; [| by apply (tolerance fixed tiny)].
  pose proof (Qabs_nonneg (float_toQ v)).
  destruct relative_to_result.
  - apply andb_prop in Hrel as [Hrel Hi].
    apply Qle_bool_iff in Hrel. apply Qeq_bool_iff in Hi.
    rewrite <- ideal_id. change (fun q : Q => q) with as_written.
    rewrite (ideal_affine _ _ _ Hnz), Hi.
    setoid_replace (fst (affine as_written ops) * float_toQ v + 0)
      with (fst (affine as_written ops) * float_toQ v) using relation Qeq by ring.
    rewrite Qabs_Qmult, Qmult_assoc. by apply Qmult_le_compat_r.
  - apply Qle_bool_iff in Hrel. by apply Qmult_le_compat_r.
Qed.

Lemma headroom_1e300 : 1 <= 1e300 ∧ 1e300 * 67108864 <= ceiling.
Proof. split; vm_compute; discriminate. Qed.

(** X4. In double precision, on Length, Weight and Volume, for two units of
    the category and a finite value of size at most 1e300: converting there
    and back raises nothing, overflows at no step, and returns a finite
    double within [4.5e-16 * |value| + 1e-315] of the value. *)
Theorem round_trip_doubles (category : string) (units : list string)
    (from_unit to_unit : string) (value : float) :
  category ∈ ["Length"; "Weight"; "Volume"] →
  unit_options !! category = Some units →
  from_unit ∈ units → to_unit ∈ units →
  is_finite value = true → Qabs (float_toQ value) <= 1e300 →
  ∃ there back,
    convert_units value from_unit to_unit category = Ok there ∧
    convert_units there to_unit from_unit category = Ok back ∧
    is_finite back = true ∧
    Qabs (float_toQ back - float_toQ value)
      <= 4.5e-16 * Qabs (float_toQ value) + 1e-315.
Proof.
  intros Hc Hu Hf Ht.
  apply (round_trip_ok_sound 67108864 1e300 4.5e-16 0 1e6 1e-315);
    [| apply headroom_1e300 | apply headroom_1e300 | vm_compute; discriminate].
  apply (all_pairs_spec _ ["Length"; "Weight"; "Volume"] category units);
    [vm_compute; reflexivity | assumption ..].
Qed.

Lemma round_trip_doubles_witness :
  ∃ there back,
    convert_units 26.25%float "miles" "kilometers" "Length" = Ok there ∧
    convert_units there "kilometers" "miles" "Length" = Ok back ∧
    is_finite back = true ∧
    Qabs (float_toQ back - float_toQ 26.25%float)
      <= 4.5e-16 * Qabs (float_toQ 26.25%float) + 1e-315.
Proof.
  apply (round_trip_doubles "Length"
           ["meters"; "feet"; "inches"; "centimeters"; "kilometers"; "miles"]).
  - repeat constructor.
  - reflexivity.
  - repeat constructor.
  - repeat constructor.
  - reflexivity.
  - vm_compute. discriminate.
Defined.

(** X5. In double precision, for two of the scales Celsius, Fahrenheit and
    Kelvin and a finite value of size at most 1e300: converting there and
    back returns a finite double within [1.5e-15 * |value| + 1e-12] of the
    value. *)
Theorem round_trip_doubles_temperature (from_unit to_unit : string) (value : float) :
  from_unit ∈ ["Celsius"; "Fahrenheit"; "Kelvin"] →
  to_unit ∈ ["Celsius"; "Fahrenheit"; "Kelvin"] →
  is_finite value = true → Qabs (float_toQ value) <= 1e300 →
  ∃ there back,
    convert_units value from_unit to_unit "Temperature" = Ok there ∧
    convert_units there to_unit from_unit "Temperature" = Ok back ∧
    is_finite back = true ∧
    Qabs (float_toQ back - float_toQ value)
      <= 1.5e-15 * Qabs (float_toQ value) + 1e-12.
Proof.
  intros Hf Ht.
  apply (round_trip_ok_sound 67108864 1e300 1.5e-15 9e-13 100 1e-12);
    [| apply headroom_1e300 | apply headroom_1e300 | vm_compute; discriminate].
  apply (all_pairs_spec _ ["Temperature"] "Temperature"
           ["Celsius"; "Fahrenheit"; "Kelvin"]);
    [vm_compute; reflexivity | repeat constructor | reflexivity | assumption ..].
Qed.

Lemma round_trip_doubles_temperature_witness :
  ∃ there back,
    convert_units 98.5%float "Fahrenheit" "Kelvin" "Temperature" = Ok there ∧
    convert_units there "Kelvin" "Fahrenheit" "Temperature" = Ok back ∧
    is_finite back = true ∧
    Qabs (float_toQ back - float_toQ 98.5%float)
      <= 1.5e-15 * Qabs (float_toQ 98.5%float) + 1e-12.
Proof.
  apply (round_trip_doubles_temperature "Fahrenheit" "Kelvin").
  - repeat constructor.
  - repeat constructor.
  - reflexivity.
  - vm_compute. discriminate.
Defined.

(** X6. On Length, Weight and Volume, for two units of the category and a
    finite double of size at most 1e300, the double that [convert_units]
    returns is finite and within [4e-16 * |X| + 1e-315] of [X], the result
    of the same conversion in exact rational arithmetic on the decimal
    factors as the source writes them: the roundings of the two factors, of
    the product and of the quotient cost less than four parts in 1e16. *)
Theorem convert_units_accuracy (category : string) (units : list string)
    (from_unit to_unit : string) (value : float) :
  category ∈ ["Length"; "Weight"; "Volume"] →
  unit_options !! category = Some units →
  from_unit ∈ units → to_unit ∈ units →
  is_finite value = true → Qabs (float_toQ value) <= 1e300 →
  ∃ (r : float) (X : Q),
    convert_units value from_unit to_unit category = Ok r ∧
    convert_units (float_toQ value) from_unit to_unit category = Ok X ∧
    is_finite r = true ∧
    Qabs (float_toQ r - X) <= 4e-16 * Qabs X + 1e-315.
Proof.
  intros Hc Hu Hf Ht.
  apply (accurate_ok_sound true 67108864 1e300 4e-16 0 1e6 1e-315);
    [| apply headroom_1e300 | apply headroom_1e300 | vm_compute; discriminate].
  apply (all_pairs_spec _ ["Length"; "Weight"; "Volume"] category units);
    [vm_compute; reflexivity | assumption ..].
Qed.

Lemma convert_units_accuracy_witness :
  ∃ (r : float) (X : Q),
    convert_units 150%float "pounds" "kilograms" "Weight" = Ok r ∧
    convert_units (float_toQ 150%float) "pounds" "kilograms" "Weight" = Ok X ∧
    is_finite r = true ∧
    Qabs (float_toQ r - X) <= 4e-16 * Qabs X + 1e-315.
Proof.
  apply (convert_units_accuracy "Weight" ["kilograms"; "pounds"; "grams"; "ounces"]).
  - repeat constructor.
  - reflexivity.
  - repeat constructor.
  - repeat constructor.
  - reflexivity.
  - vm_compute. discriminate.
Defined.

(** X7. On Temperature, for two of the three scales and a finite double of
    size at most 1e300, the double that [convert_units] returns is finite and
    within [1e-15 * |value| + 1e-12] of the result of the same formulas in
    exact rational arithmetic, 273.15 being the decimal number. *)
Theorem convert_units_accuracy_temperature (from_unit to_unit : string)
    (value : float) :
  from_unit ∈ ["Celsius"; "Fahrenheit"; "Kelvin"] →
  to_unit ∈ ["Celsius"; "Fahrenheit"; "Kelvin"] →
  is_finite value = true → Qabs (float_toQ value) <= 1e300 →
  ∃ (r : float) (X : Q),
    convert_units value from_unit to_unit "Temperature" = Ok r ∧
    convert_units (float_toQ value) from_unit to_unit "Temperature" = Ok X ∧
    is_finite r = true ∧
    Qabs (float_toQ r - X) <= 1e-15 * Qabs (float_toQ value) + 1e-12.
Proof.
  intros Hf Ht.
  apply (accurate_ok_sound false 67108864 1e300 1e-15 9e-13 100 1e-12);
    [| apply headroom_1e300 | apply headroom_1e300 | vm_compute; discriminate].
  apply (all_pairs_spec _ ["Temperature"] "Temperature"
           ["Celsius"; "Fahrenheit"; "Kelvin"]);
    [vm_compute; reflexivity | repeat constructor | reflexivity | assumption ..].
Qed.

Lemma convert_units_accuracy_temperature_witness :
  ∃ (r : float) (X : Q),
    convert_units 451%float "Fahrenheit" "Celsius" "Temperature" = Ok r ∧
    convert_units (float_toQ 451%float) "Fahrenheit" "Celsius" "Temperature" = Ok X ∧
    is_finite r = true ∧
    Qabs (float_toQ r - X) <= 1e-15 * Qabs (float_toQ 451%float) + 1e-12.
Proof.
  apply (convert_units_accuracy_temperature "Fahrenheit" "Celsius").
  - repeat constructor.
  - repeat constructor.
  - reflexivity.
  - vm_compute. discriminate.
Defined.

End Doubles.

(** ** The engine in exact arithmetic, and the identity in doubles *)

Section Exactness.
Local Open Scope Q_scope.

Lemma lit_one : lit (num := float) 1.0 = 1%float.
Proof. vm_compute. reflexivity. Qed.

(** X3. In double precision, converting from a base unit (meters, kilograms,
    liters) or from Celsius to itself returns the value itself, for every
    double, the infinities and NaN included: [x * 1.0 / 1.0] is [x].  For
    other units the identity is not exact: 7 feet in feet is less than 7. *)
Theorem convert_units_base_unit_identity :
  (∀ (value : float) (category unit : string),
      (category, unit) ∈ [("Length", "meters"); ("Weight", "kilograms");
                          ("Volume", "liters"); ("Temperature", "Celsius")] →
      convert_units value unit unit category = Ok value) ∧
  (∃ r : float,
      convert_units 7%float "feet" "feet" "Length" = Ok r ∧ float_toQ r < 7).
Proof.
  split.
  - intros value category unit Hin.
    repeat (apply elem_of_cons in Hin as [[= -> ->] | Hin]);
      [.. | by apply elem_of_nil in Hin].
    4: reflexivity.
    all: rewrite (convert_units_of_factors _ _ _ (lit 1.0) (lit 1.0) value);
      [| reflexivity ..].
    all: rewrite lit_one; f_equal; apply float_mul_div_one.
  - eexists. split; [vm_compute; reflexivity |]. vm_compute. reflexivity.
Qed.

Lemma convert_units_base_unit_identity_witness :
  convert_units 0.125%float "liters" "liters" "Volume" = Ok 0.125%float.
Proof.
  apply (proj1 convert_units_base_unit_identity 0.125%float "Volume" "liters").
  repeat constructor.
Defined.

Lemma factor_known (c u : string) (q : Q) :
  factor (num := Q) c u = Some q →
  c ∈ ["Length"; "Weight"; "Volume"] ∧
  ∃ units, unit_options !! c = Some units ∧ u ∈ units.
Proof.
  intros Hq.
  destruct (decide (c ∈ categories)) as [Hc | Hc].
  - assert (c = "Temperature" ∨ c ∈ ["Length"; "Weight"; "Volume"]) as [-> | Hm].
    { unfold categories in Hc.
      pick_member Hc; [right | right | by left | right]; repeat constructor. }
    + exfalso. revert Hq. unfold factor.
      destruct (temperature_table (num := Q)) as (t2 & -> & Hu2).
      destruct (decide (u ∈ ["Celsius"; "Fahrenheit"; "Kelvin"])) as [Hu | Hu].
      * by destruct (proj1 (Hu2 u) Hu) as [f2 ->].
      * by rewrite (proj2 (Hu2 u) Hu).
    + split; [done |].
      assert (∃ units, unit_options !! c = Some units) as [units Hunits].
      { pick_member Hm; eexists; reflexivity. }
      exists units. split; [done |].
      destruct (decide (u ∈ units)) as [Hu | Hu]; [done | exfalso].
      destruct (table_units (num := Q) c units Hm Hunits) as (t2 & Ht2 & Hu2).
      revert Hq. unfold factor. by rewrite Ht2, (proj2 (Hu2 u) Hu).
  - exfalso. revert Hq. unfold factor.
    by rewrite (conversions_unknown_category (num := Q) _ Hc).
Qed.

Lemma factor_pos (c u : string) (q : Q) :
  factor (num := Q) c u = Some q → 0 < q.
Proof.
  intros Hq. destruct (factor_known c u q Hq) as (Hc & units & Hunits & Hu).
  pick_member Hc; vm_compute in Hunits; injection Hunits as <-;
    pick_member Hu; injection Hq as <-; reflexivity.
Qed.

Section ExactArithmetic.

Lemma convert_units_exact (category : string) (units : list string)
    (from_unit to_unit : string) (value : Q) :
  category ∈ ["Length"; "Weight"; "Volume"] →
  unit_options !! category = Some units →
  from_unit ∈ units → to_unit ∈ units →
  ∃ x y, factor category from_unit = Some x ∧ factor category to_unit = Some y ∧
    0 < x ∧ 0 < y ∧
    convert_units value from_unit to_unit category = Ok (value * x / y).
Proof.
  intros Hc Hu Hf Ht.
  destruct (convert_units_factor (num := Q) category units from_unit to_unit value
              Hc Hu Hf Ht) as (x & y & Hx & Hy & E).
  exists x, y. repeat split; try done; by eapply factor_pos.
Qed.

End ExactArithmetic.







End Exactness.

(** ** Errors of the engine, the interpreter and the two modes *)

Section EngineErrors.
Context {num : Type} `{Number num}.

(** The table of a category other than Temperature holds factors only. *)
Lemma table_of_factors (category : string) (table : gmap string entry)
    (unit : string) (e : entry) :
  String.eqb category "Temperature" = false →
  conversions (num := num) !! category = Some table →
  table !! unit = Some e →
  ∃ f, e = Factor f.
Proof.
  intros Hn Ht He.
  destruct (decide (category ∈ categories)) as [Hc | Hc].
  - assert (category ∈ ["Length"; "Weight"; "Volume"]) as Hm.
    { unfold categories in Hc.
      pick_member Hc; [| | discriminate |]; repeat constructor. }
    assert (∃ units, unit_options !! category = Some units) as [units Hunits].
    { pick_member Hm; eexists; reflexivity. }
    destruct (table_units (num := num) category units Hm Hunits)
      as (table' & Ht' & Hu).
    rewrite Ht in Ht'. injection Ht' as <-.
    destruct (decide (unit ∈ units)) as [Hin | Hin].
    + destruct (proj1 (Hu unit) Hin) as [f Hf]. rewrite He in Hf.
      injection Hf as ->. eauto.
    + rewrite (proj2 (Hu unit) Hin) in He. discriminate.
  - rewrite (conversions_unknown_category _ Hc) in Ht. discriminate.
Qed.

End EngineErrors.



(** X2. The [KeyError] names the first key that is missing, in the order of
    the lookups of lines 72-73: the category when it is none of the four;
    on Length, Weight and Volume the [from_unit] when it is no unit of the
    category, whatever [to_unit] is; and [to_unit] when only it is unknown. *)
Theorem convert_units_first_missing_key :
  ∀ (num : Type) (N : Number num) (value : num) (from_unit to_unit category : string),
    (category ∉ categories →
       convert_units value from_unit to_unit category = Raise (KeyError category)) ∧
    (∀ units, category ∈ ["Length"; "Weight"; "Volume"] →
       unit_options !! category = Some units →
       from_unit ∉ units →
       convert_units value from_unit to_unit category = Raise (KeyError from_unit)) ∧
    (∀ units, category ∈ ["Length"; "Weight"; "Volume"] →
       unit_options !! category = Some units →
       from_unit ∈ units → to_unit ∉ units →
       convert_units value from_unit to_unit category = Raise (KeyError to_unit)).
Proof.
  intros num N value from_unit to_unit category. split; [| split].
  - apply convert_units_unknown_category.
  - intros units. apply convert_units_unknown_from_unit.
  - intros units. apply convert_units_unknown_to_unit.
Qed.

Lemma convert_units_first_missing_key_witness :
  convert_units 3%float "meters" "yards" "Length" = Raise (KeyError "yards").
Proof.
  apply (proj2 (proj2 (convert_units_first_missing_key float float_Number 3%float
                         "meters" "yards" "Length"))
           ["meters"; "feet"; "inches"; "centimeters"; "kilometers"; "miles"]);
    [repeat constructor | reflexivity | repeat constructor | ].
  apply (bool_decide_unpack _). vm_compute. exact I.
Defined.

Section InterpreterCases.

(** How a call ends: one message and [None], or the tuple and no message. *)
Lemma parse_with_gemini_cases (generate_content : string → result string)
    (input_text : string) :
  (∃ m, parse_with_gemini generate_content input_text = error_none m) ∨
  (∃ (value : float) (from_unit to_unit : json) (category : string),
      parse_with_gemini generate_content input_text
        = return_tuple (value, from_unit, to_unit, JStr category) ∧
      category ∈ valid_categories).
Proof.
  unfold parse_with_gemini.
  destruct (generate_content (prompt input_text)) as [text | e]; simpl;
    [| left; eauto].
  destruct (strip_fences (Str.strip text)) as [raw | e]; simpl; [| left; eauto].
  destruct (validate raw) as [o | e] eqn:Hv.
  - destruct (validate_ok _ _ Hv)
      as [-> | [[c ->] | (value & from_unit & to_unit & c & -> & Hc)]].
    + left. eauto.
    + left. eauto.
    + right. eauto 10.
  - destruct e; simpl; left; eauto.
Qed.

Lemma valid_categories_cases (category : string) :
  category ∈ valid_categories →
  category = "Temperature" ∨ category ∈ ["Length"; "Weight"; "Volume"].
Proof.
  unfold valid_categories. rewrite !elem_of_union, !elem_of_singleton.
  intros [[[-> | ->] | ->] | ->]; [right | right | by left | right];
    repeat constructor.
Qed.

End InterpreterCases.

Section DynamicEngine.

Lemma convert_units_any_str (value : float) (from_unit to_unit category : string) :
  convert_units_any value (JStr from_unit) (JStr to_unit) (JStr category)
    = lift (convert_units value from_unit to_unit category).
Proof.
  unfold convert_units_any, convert_units. simpl.
  destruct (String.eqb category "Temperature").
  - destruct (String.eqb to_unit "Fahrenheit"); [done |].
    by destruct (String.eqb to_unit "Kelvin").
  - destruct (getitem conversions category) as [table | e]; simpl; [| done].
    destruct (getitem table from_unit) as [from_entry | e]; simpl; [| done].
    destruct (mul_entry value from_entry) as [to_base | e]; simpl; [| done].
    by destruct (getitem table to_unit) as [to_entry | e].
Qed.

Lemma convert_units_any_temperature (value : float) (from_unit to_unit : json) :
  ∃ r, convert_units_any value from_unit to_unit (JStr "Temperature") = inl r.
Proof.
  unfold convert_units_any. simpl.
  destruct (is_str to_unit "Fahrenheit"); [eauto |].
  destruct (is_str to_unit "Kelvin"); eauto.
Qed.

(** What the engine raises on a category of the interpreter. *)
Lemma convert_units_any_raises (value : float) (from_unit to_unit : json)
    (category : string) (e : raised) :
  category ∈ ["Length"; "Weight"; "Volume"] →
  convert_units_any value from_unit to_unit (JStr category) = inr e →
  (hashable from_unit = true ∧ e = match from_unit with
                                    | JStr s => Exn (KeyError s)
                                    | k => KeyErrorOf k
                                    end) ∨
  (hashable to_unit = true ∧ e = match to_unit with
                                  | JStr s => Exn (KeyError s)
                                  | k => KeyErrorOf k
                                  end) ∨
  (∃ msg, e = Exn (TypeError msg) ∧
          (hashable from_unit = false ∨ hashable to_unit = false)).
Proof.
  intros Hm. unfold convert_units_any. cbn [is_str].
  rewrite (not_temperature _ Hm).
  assert (∃ units, unit_options !! category = Some units) as [units Hunits].
  { pick_member Hm; eexists; reflexivity. }
  destruct (table_units (num := float) category units Hm Hunits)
    as (table & Ht & Hu).
  cbn [getitem_any]. unfold getitem. rewrite Ht. cbn [lift].
  destruct from_unit as [| b | n | x | s | l | d]; cbn [getitem_any].
  1-4: intros [= <-]; left; split; reflexivity.
  2-3: intros [= <-]; right; right; eexists; split; [reflexivity | by left].
  unfold getitem.
  destruct (decide (s ∈ units)) as [Hs | Hs];
    [| rewrite (proj2 (Hu s) Hs); intros [= <-]; left; split; reflexivity].
  destruct (proj1 (Hu s) Hs) as [f ->]. cbn [lift mul_entry].
  destruct to_unit as [| b | n | x | s' | l | d]; cbn [getitem_any].
  1-4: intros [= <-]; right; left; split; reflexivity.
  2-3: intros [= <-]; right; right; eexists; split; [reflexivity | by right].
  unfold getitem.
  destruct (decide (s' ∈ units)) as [Hs' | Hs'];
    [| rewrite (proj2 (Hu s') Hs'); intros [= <-]; right; left; split; reflexivity].
  destruct (proj1 (Hu s') Hs') as [g ->]. discriminate.
Qed.

End DynamicEngine.

(** X11. When the service answered and the text left by fence stripping is
    no JSON, the [JSONDecodeError] of [json.loads] is caught by the inner
    handler (lines 124-126): the one message shown is the failed-to-parse
    one, carrying that error, and [None] is returned. *)
Theorem malformed_json_reported (generate_content : string → result string)
    (input_text text raw_response msg : string) :
  generate_content (prompt input_text) = Ok text →
  strip_fences (Str.strip text) = Ok raw_response →
  Json.loads raw_response = Raise (JSONDecodeError msg) →
  parse_with_gemini generate_content input_text
    = error_none (FailedToParseJSON (JSONDecodeError msg)).
Proof.
  intros Hg Hs Hl. rewrite (parse_with_gemini_answered _ _ _ _ Hg Hs).
  unfold validate. by rewrite Hl.
Qed.

Lemma malformed_json_reported_witness :
  parse_with_gemini (answers "I cannot help with that.") "hello"
    = error_none (FailedToParseJSON (JSONDecodeError "Expecting value")).
Proof.
  apply (malformed_json_reported (answers "I cannot help with that.") "hello"
           "I cannot help with that." "I cannot help with that.").
  - reflexivity.
  - vm_compute. reflexivity.
  - vm_compute. reflexivity.
Defined.

(** X12. When the text decodes to a JSON value that is no object (an array,
    a string, a number, a boolean or null), [result.keys()] of line 113
    raises [AttributeError]; only the outer handler catches it, so what is
    shown is the message of a failure of the service, and not the one of a
    missing key. *)
Theorem non_object_shown_as_api_error (generate_content : string → result string)
    (input_text text raw_response : string) (v : json) :
  generate_content (prompt input_text) = Ok text →
  strip_fences (Str.strip text) = Ok raw_response →
  Json.loads raw_response = Ok v →
  (∀ d, v ≠ JDict d) →
  parse_with_gemini generate_content input_text
    = error_none (GeminiAPIError (AttributeError "object has no attribute 'keys'")).
Proof.
  intros Hg Hs Hl Hv. rewrite (parse_with_gemini_answered _ _ _ _ Hg Hs).
  unfold validate. rewrite Hl. simpl.
  destruct v; try reflexivity. by destruct (Hv d).
Qed.

Lemma non_object_shown_as_api_error_witness :
  parse_with_gemini (answers "[5, 3]") "convert 5 feet to meters"
    = error_none (GeminiAPIError (AttributeError "object has no attribute 'keys'")).
Proof.
  apply (non_object_shown_as_api_error (answers "[5, 3]") "convert 5 feet to meters"
           "[5, 3]" "[5, 3]" (JList [JInt 5; JInt 3])).
  - reflexivity.
  - vm_compute. reflexivity.
  - vm_compute. reflexivity.
  - intros d. discriminate.
Defined.



Section Fences.

Lemma strip_prefix_app (p q s r : string) :
  Str.strip_prefix (p ++ q) s = Some r → ∃ r', Str.strip_prefix p s = Some r'.
Proof.
  revert s. induction p as [| a p IH]; intros s; [simpl; eauto |].
  destruct s as [| b s]; simpl; [discriminate |].
  destruct (Ascii.eqb a b); [apply IH | discriminate].
Qed.

(** Where a longer text occurs, so does its beginning. *)
Lemma contains_app (p q s : string) :
  Str.contains (p ++ q) s = true → Str.contains p s = true.
Proof.
  induction s as [| c s IH].
  - cbn [Str.contains].
    destruct (Str.strip_prefix (p ++ q) "") eqn:Hp; [| discriminate].
    by destruct (strip_prefix_app _ _ _ _ Hp) as [r' ->].
  - cbn [Str.contains].
    destruct (Str.strip_prefix (p ++ q) (String c s)) eqn:Hp.
    + by destruct (strip_prefix_app _ _ _ _ Hp) as [r' ->].
    + intros Hc. rewrite (IH Hc). by destruct (Str.strip_prefix p (String c s)).
Qed.

End Fences.

(** X14. The subscripts [1] and [0] of lines 105 and 107 raise no
    [IndexError]: each is applied to the pieces of a text split at a
    separator that occurs in it.  A response without three backquotes in a
    row is left as it is. *)
Theorem strip_fences_never_raises (raw_response : string) :
  (∃ payload, strip_fences raw_response = Ok payload) ∧
  (Str.contains "```" raw_response = false →
     strip_fences raw_response = Ok raw_response).
Proof.
  split; [apply strip_fences_total |].
  intros Hf. unfold strip_fences. rewrite Hf.
  destruct (Str.contains "```json" raw_response) eqn:Hj; [| done].
  apply (contains_app "```" "json") in Hj. congruence.
Qed.

Lemma strip_fences_never_raises_witness :
  strip_fences "{}" = Ok "{}".
Proof.
  apply (proj2 (strip_fences_never_raises "{}")). reflexivity.
Defined.

(** X15. The manual tab (lines 224-229), which catches nothing, has nothing
    to catch: for a category and two units that its select boxes offer,
    [convert_units] returns, and the click shows exactly one message, the
    converted value when [value >= 0] holds and the request for a positive
    value otherwise (so also for NaN). *)
Theorem manual_mode_selectable (value : float) (category : string)
    (units : list string) (from_unit to_unit : string) :
  unit_options !! category = Some units →
  from_unit ∈ units → to_unit ∈ units →
  ∃ result,
    convert_units value from_unit to_unit category = Ok result ∧
    manual_mode value from_unit to_unit category
      = shows [if (0 <=? value)%float
               then Converted value (JStr from_unit) result (JStr to_unit)
               else EnterPositiveValue].
Proof.
  intros Hu Hf Ht.
  assert (∃ r, convert_units value from_unit to_unit category = Ok r) as [r Hr].
  { destruct (decide (category ∈ ["Length"; "Weight"; "Volume"])) as [Hc | Hc].
    - destruct (convert_units_factor category units from_unit to_unit value
                  Hc Hu Hf Ht) as (x & y & _ & _ & E). eauto.
    - assert (category = "Temperature") as ->.
      { pose proof (unit_options_cases category units Hu) as Hin.
        unfold categories in Hin. pick_member Hin; try done; exfalso; apply Hc;
          repeat constructor. }
      apply convert_units_temperature_total. }
  exists r. split; [done |]. unfold manual_mode. rewrite Hr.
  by destruct (0 <=? value)%float.
Qed.

Lemma manual_mode_selectable_witness :
  ∃ result,
    convert_units 2%float "feet" "inches" "Length" = Ok result ∧
    manual_mode 2%float "feet" "inches" "Length"
      = shows [if (0 <=? 2)%float
               then Converted 2%float (JStr "feet") result (JStr "inches")
               else EnterPositiveValue].
Proof.
  apply (manual_mode_selectable 2%float "Length"
           ["meters"; "feet"; "inches"; "centimeters"; "kilometers"; "miles"]).
  - reflexivity.
  - repeat constructor.
  - repeat constructor.
Defined.

(** X16. In the AI tab (lines 234-250), when the request is not empty and
    [parse_with_gemini] returns [None], two errors are shown and nothing is
    raised: the one message of the interpreter, then the request to try
    again. *)
Theorem ai_mode_parse_failure (generate_content : string → result string)
    (user_input : string) :
  user_input ≠ "" →
  returned (parse_with_gemini generate_content user_input) = None →
  ∃ m, shown (parse_with_gemini generate_content user_input) = [m] ∧
       ai_mode generate_content user_input = shows [Reported m; CouldNotParse].
Proof.
  intros Hi Hr. unfold ai_mode.
  destruct (String.eqb_spec user_input "") as [-> | _]; [done |].
  cbv zeta.
  destruct (parse_with_gemini_cases generate_content user_input)
    as [[m E] | (v & f & t & c & E & _)]; rewrite E in Hr |- *; [| discriminate].
  exists m. split; reflexivity.
Qed.

Lemma ai_mode_parse_failure_witness :
  ∃ m, shown (parse_with_gemini (answers response_speed) "convert 5 feet to meters")
         = [m] ∧
       ai_mode (answers response_speed) "convert 5 feet to meters"
         = shows [Reported m; CouldNotParse].
Proof.
  apply (ai_mode_parse_failure (answers response_speed) "convert 5 feet to meters").
  - discriminate.
  - vm_compute. reflexivity.
Defined.





Section Handlers.

(** How the AI tab ends, by what the interpreter returned. *)
Lemma ai_mode_cases (generate_content : string → result string)
    (user_input : string) :
  ai_mode generate_content user_input = shows [EnterRequestFirst] ∨
  (∃ m, ai_mode generate_content user_input = shows [Reported m; CouldNotParse]) ∨
  (∃ value from_unit to_unit category,
      returned (parse_with_gemini generate_content user_input)
        = Some (value, from_unit, to_unit, JStr category) ∧
      category ∈ valid_categories ∧
      ai_mode generate_content user_input =
        match convert_units_any value from_unit to_unit (JStr category) with
        | inl result => shows [Converted value from_unit result to_unit]
        | inr (Exn (KeyError key)) => shows [UnsupportedUnit (JStr key)]
        | inr (KeyErrorOf key) => shows [UnsupportedUnit key]
        | inr (Exn (ValueError _)) => shows [InvalidNumber]
        | inr e => {| notices := []; uncaught := Some e |}
        end).
Proof.
  unfold ai_mode.
  destruct (String.eqb user_input ""); [by left |]. right. cbv zeta.
  destruct (parse_with_gemini_cases generate_content user_input)
    as [[m E] | (v & f & t & c & E & Hc)]; rewrite E.
  - left. by exists m.
  - right. exists v, f, t, c. split; [done |]. split; [done |]. simpl.
    by destruct (convert_units_any v f t (JStr c)) as [r | [[] | k]].
Qed.

End Handlers.

Ltac absent H :=
  repeat (apply elem_of_cons in H as [H | H]; [discriminate |]);
  by apply elem_of_nil in H.




(** ** The decoder never runs out of fuel *)

Section Fuel.

Lemma skip_ws_length (s : string) :
  (String.length (Json.skip_ws s) <= String.length s)%nat.
Proof.
  induction s as [| c s IH]; simpl; [lia |].
  destruct (Json.is_ws c); simpl; lia.
Qed.

Lemma strip_prefix_length (p s r : string) :
  Str.strip_prefix p s = Some r →
  String.length s = (String.length p + String.length r)%nat.
Proof.
  revert s. induction p as [| a p IH]; intros s; simpl.
  - by intros [= ->].
  - destruct s as [| b s]; [discriminate |].
    destruct (Ascii.eqb a b); [| discriminate].
    intros H. apply IH in H. simpl. lia.
Qed.

Lemma scanned_emit (bound : nat) (piece : string) (k : result (string * string)) :
  scanned bound k → scanned bound (Json.emit piece k).
Proof. unfold Json.emit. by destruct k as [[str rest] | e]. Qed.

Lemma scanned_weaken {A : Type} (a b : nat) (r : result (A * string)) :
  (a <= b)%nat → scanned a r → scanned b r.
Proof. destruct r as [[v rest] | e]; simpl; [lia | done]. Qed.

Lemma scanstring_scanned (n : nat) (s : string) :
  (String.length s <= n)%nat →
  scanned (String.length s) (Json.scanstring s).
Proof.
  revert s. induction n as [| n IH]; intros s Hn.
  { destruct s; [done | simpl in Hn; lia]. }
  destruct s as [| c s]; [done |].
  cbn [Json.scanstring].
  repeat match goal with
         | |- scanned _ (Json.decode_error _) => done
         | |- scanned _ (Ok _) => simpl; lia
         | |- scanned _ (Json.emit _ _) =>
             apply scanned_emit;
             eapply scanned_weaken; [| apply IH]; simpl in *; lia
         | |- scanned _ (if ?b then _ else _) => destruct b
         | |- scanned _ (match ?x with _ => _ end) => destruct x
         end.
Qed.

Lemma span_digits_length (s : string) :
  (String.length (Dec.span_digits s).2 <= String.length s)%nat.
Proof.
  induction s as [| c s IH]; simpl; [lia |].
  destruct (Dec.is_digit c); simpl; [| lia].
  destruct (Dec.span_digits s) as [d r]. simpl in *. lia.
Qed.

Lemma match_number_length (s : string) (v : json) (r : string) :
  Json.match_number s = Some (v, r) → (String.length r < String.length s)%nat.
Proof.
  unfold Json.match_number.
  set (signed := match s with String "-" s' => (true, s') | _ => (false, s) end).
  assert (String.length signed.2 <= String.length s)%nat as Hsigned.
  { subst signed. destruct s as [| [[] [] [] [] [] [] [] []] s']; simpl; lia. }
  destruct signed as [neg s1]. simpl in Hsigned.
  set (integer := match s1 with
                  | String "0" s2 => Some ("0", s2)
                  | String c _ =>
                      if Dec.is_digit c then Some (Dec.span_digits s1) else None
                  | "" => None
                  end).
  assert (∀ ipart s2, integer = Some (ipart, s2) →
            (String.length s2 < String.length s1)%nat) as Hinteger.
  { subst integer. intros ipart s2.
    destruct s1 as [| c s']; [discriminate |].
    assert (Dec.is_digit c = true →
            Some (Dec.span_digits (String c s')) = Some (ipart, s2) →
            (String.length s2 < String.length (String c s'))%nat) as Hspan.
    { intros Hd. simpl. rewrite Hd.
      pose proof (span_digits_length s') as Hl.
      destruct (Dec.span_digits s') as [d r']. intros [= <- <-]. simpl in *. lia. }
    destruct c as [[] [] [] [] [] [] [] []];
      try (intros [= <- <-]; simpl; lia);
      try discriminate;
      by apply Hspan. }
  destruct integer as [[ipart s2] |]; [| discriminate].
  specialize (Hinteger ipart s2 eq_refl).
  set (fraction := match s2 with
                   | String "." t =>
                       let '(f, t') := Dec.span_digits t in
                       if String.eqb f "" then (None, s2) else (Some f, t')
                   | _ => (None, s2)
                   end).
  assert (String.length fraction.2 <= String.length s2)%nat as Hfraction.
  { subst fraction. destruct s2 as [| c t]; [simpl; lia |].
    pose proof (span_digits_length t) as Hl.
    destruct (Dec.span_digits t) as [f t'].
    destruct c as [[] [] [] [] [] [] [] []]; try (simpl; lia).
    destruct (String.eqb f ""); simpl in *; lia. }
  destruct fraction as [frac s3]. simpl in Hfraction.
  set (exponent := match s3 with
                   | String c t =>
                       if Ascii.eqb c "e" || Ascii.eqb c "E" then
                         let '(eneg, t1) := match t with
                                            | String "-" t' => (true, t')
                                            | String "+" t' => (false, t')
                                            | _ => (false, t)
                                            end in
                         let '(ds, t2) := Dec.span_digits t1 in
                         if String.eqb ds "" then (None, s3)
                         else (Some (if eneg then - Dec.Z_of_digits ds
                                     else Dec.Z_of_digits ds)%Z, t2)
                       else (None, s3)
                   | "" => (None, s3)
                   end).
  assert (String.length exponent.2 <= String.length s3)%nat as Hexponent.
  { subst exponent. destruct s3 as [| c t]; [simpl; lia |].
    destruct (Ascii.eqb c "e" || Ascii.eqb c "E"); [| simpl; lia].
    set (esign := match t with
                  | String "-" t' => (true, t')
                  | String "+" t' => (false, t')
                  | _ => (false, t)
                  end).
    assert (String.length esign.2 <= String.length t)%nat as Hesign.
    { subst esign. destruct t as [| [[] [] [] [] [] [] [] []] t']; simpl; lia. }
    destruct esign as [eneg t1]. simpl in Hesign.
    pose proof (span_digits_length t1) as Hl.
    destruct (Dec.span_digits t1) as [ds t2].
    destruct (String.eqb ds ""); simpl in *; lia. }
  destruct exponent as [expo s4]. simpl in Hexponent.
  destruct frac, expo; intros [= <- <-]; lia.
Qed.

End Fuel.

Ltac scan_bind H c :=
  pose proof H;
  destruct c as [[? ?] | ?]; cbn [mbind result_bind scanned] in *; [| assumption].

Ltac scan_step :=
  match goal with
  | |- scanned _ (Json.decode_error _) => done
  | |- scanned _ (Ok (_, _)) => cbn [scanned String.length] in *; lia
  | |- (_ < _)%nat => cbn [String.length] in *; lia
  | |- scanned _ (mbind _ (Json.scanstring ?t)) =>
      scan_bind (scanstring_scanned _ t (le_n _)) (Json.scanstring t)
  | IH : ∀ s, (String.length s < ?fuel)%nat → scanned _ (Json.scan_once ?fuel s)
    |- scanned _ (mbind _ (Json.scan_once ?fuel ?t)) =>
      let H := fresh in
      assert (String.length t < fuel)%nat as H
        by (cbn [String.length] in *; lia);
      scan_bind (IH t H) (Json.scan_once fuel t)
  | |- context [Json.skip_ws ?t] =>
      pose proof (skip_ws_length t); generalize dependent (Json.skip_ws t); intros
  | |- scanned _ (match Str.strip_prefix ?p ?s with _ => _ end) =>
      let E := fresh in
      destruct (Str.strip_prefix p s) eqn:E;
      [apply strip_prefix_length in E; cbn [String.length] in E |]
  | |- scanned _ (match Json.match_number ?s with _ => _ end) =>
      let E := fresh in
      destruct (Json.match_number s) as [[? ?] |] eqn:E;
      [apply match_number_length in E; cbn [String.length] in E |]
  | |- scanned _ (if ?b then _ else _) => destruct b
  | |- scanned _ (match ?x with _ => _ end) => destruct x
  end.

Lemma scan_once_scanned (fuel : nat) (s : string) :
  (String.length s < fuel)%nat → scanned (String.length s) (Json.scan_once fuel s).
Proof.
  revert s. induction fuel as [| fuel' IH]; intros s Hs; [lia |].
  cbn [Json.scan_once].
  match goal with
  | |- context [?F fuel' EmptyString (@nil (string * json))] =>
      assert (∀ n s0 pairs, (String.length s0 < n)%nat → (n <= fuel')%nat →
                scanned (String.length s0) (F n s0 pairs)) as Hmembers
  end.
  { induction n as [| n IHn]; intros s0 pairs Hl Hn; [lia |].
    cbv beta iota fix.
    repeat first
      [ scan_step
      | eapply scanned_weaken; [| apply IHn];
        cbn [String.length] in *; lia ]. }
  match goal with
  | |- context [?F fuel' EmptyString (@nil json)] =>
      assert (∀ n s0 items, (String.length s0 < n)%nat → (n <= fuel')%nat →
                scanned (String.length s0) (F n s0 items)) as Hitems
  end.
  { induction n as [| n IHn]; intros s0 items Hl Hn; [lia |].
    cbv beta iota fix.
    repeat first
      [ scan_step
      | eapply scanned_weaken; [| apply IHn];
        cbn [String.length] in *; lia ]. }
  match goal with
  | |- context [?F fuel' EmptyString (@nil (string * json))] =>
      generalize dependent F; intros members Hmembers
  end.
  match goal with
  | |- context [?F fuel' EmptyString (@nil json)] =>
      generalize dependent F; intros items Hitems
  end.
  assert (String.length s <= fuel')%nat as Hs' by lia. clear Hs.
  destruct s as [| c t]; [repeat scan_step |].
  destruct c as [[] [] [] [] [] [] [] []].
  all: repeat first
         [ scan_step
         | eapply scanned_weaken; [| apply Hmembers];
           cbn [String.length] in *; lia
         | eapply scanned_weaken; [| apply Hitems];
           cbn [String.length] in *; lia ].
Qed.

(** [json.loads] never runs out of fuel. *)
Lemma loads_fuel_enough (s : string) : Json.loads s ≠ Raise RecursionError.
Proof.
  unfold Json.loads.
  pose proof (skip_ws_length s) as Hl.
  pose proof (scan_once_scanned (S (String.length s)) (Json.skip_ws s)
                ltac:(lia)) as H.
  destruct (Json.scan_once _ _) as [[v rest] | e]; simpl in *.
  - by destruct (Json.skip_ws rest).
  - by intros [= ->].
Qed.
